(** * notion: a client binding for the notion.so API

    A shallow embedding of the record reconstruction pipeline of the Go
    packages [notion] (client, pagination, record-map merge, mutation) and
    [notiontypes] (inline rich-text parser), with the properties the
    specification states about them. *)

From Stdlib Require Import Ascii String ZArith.
From stdpp Require Import gmap strings list fin_maps.

Local Open Scope string_scope.
Local Open Scope list_scope.

(** ** Go values shared by both packages *)

(** What [encoding/json] produces when it decodes into an [interface{}]:
    [nil], [bool], [float64], [string], [[]interface{}] and
    [map[string]interface{}].  No function of the repository looks inside a
    number, so a [float64] is kept as the literal it was read from. *)
#[warnings="-register-all"]
Inductive value : Type :=
  | VNil
  | VBool (b : bool)
  | VNumber (literal : string)
  | VString (s : string)
  | VArray (a : list value)
  | VObject (m : gmap string value).

(** The arguments handed to [fmt.Errorf]. *)
Inductive fmtarg : Type :=
  | ArgValue (v : value)
  | ArgString (s : string)
  | ArgInt (n : Z).

(** Go [error] values: [fmt.Errorf format args...], [errors.Wrap err msg],
    and the errors of the collaborators (transport, [encoding/json]), which
    are opaque here. *)
Inductive error : Type :=
  | Errorf (format : string) (args : list fmtarg)
  | Wrap (cause : error) (msg : string)
  | External (description : string).

(** What a run-time panic carries. *)
Inductive panic_value : Type :=
  | TypeAssertionFailed (wanted : string) (got : value)
  | PanicError (e : error)
  | NilDereference
  | AssignToNilMap
  | IndexOutOfRange (index length : Z).

(** The outcome of running a function: it returns, it panics, or the model
    ran out of fuel (only loops can). *)
Inductive exec (A : Type) : Type :=
  | Done (a : A)
  | Panic (p : panic_value)
  | OutOfFuel.
Arguments Done {A} a.
Arguments Panic {A} p.
Arguments OutOfFuel {A}.

Definition exec_bind {A B} (m : exec A) (k : A → exec B) : exec B :=
  match m with
  | Done a => k a
  | Panic p => Panic p
  | OutOfFuel => OutOfFuel
  end.

(** ** Package notiontypes: the inline rich-text parser *)

Module notiontypes.

(** [AttrFlag] is an [int]; the constants are [1 << iota]. *)
Definition AttrFlag := Z.
Definition AttrBold : AttrFlag := Z.shiftl 1 0.
Definition AttrCode : AttrFlag := Z.shiftl 1 1.
Definition AttrItalic : AttrFlag := Z.shiftl 1 2.
Definition AttrStrikeThrought : AttrFlag := Z.shiftl 1 3.

Section Parser.

(** The struct [Date] is declared in a file of the package that is not part
    of the sources at hand.  [decodeDate] stands for the
    [json.MarshalIndent] / [json.Unmarshal] round trip that turns the JSON
    object of a ["d"] attribute into a [Date]. *)
Variable Date : Type.
Variable decodeDate : gmap string value → error + Date.

(** [InlineBlock]; the pointer field [Date] is [None] when nil. *)
Record InlineBlock : Type := mkInlineBlock {
  Text : string;
  AttrFlags : AttrFlag;
  Link : string;
  UserID : string;
  Date_ : option Date;
}.

(** The composite literal [&InlineBlock{Text: s}]. *)
Definition newInlineBlock (s : string) : InlineBlock :=
  {| Text := s; AttrFlags := 0%Z; Link := EmptyString; UserID := EmptyString; Date_ := None |}.

Definition orFlag (b : InlineBlock) (f : AttrFlag) : InlineBlock :=
  {| Text := Text b; AttrFlags := Z.lor (AttrFlags b) f; Link := Link b;
     UserID := UserID b; Date_ := Date_ b |}.
Definition setLink (b : InlineBlock) (v : string) : InlineBlock :=
  {| Text := Text b; AttrFlags := AttrFlags b; Link := v;
     UserID := UserID b; Date_ := Date_ b |}.
Definition setUserID (b : InlineBlock) (v : string) : InlineBlock :=
  {| Text := Text b; AttrFlags := AttrFlags b; Link := Link b;
     UserID := v; Date_ := Date_ b |}.
Definition setDate (b : InlineBlock) (d : Date) : InlineBlock :=
  {| Text := Text b; AttrFlags := AttrFlags b; Link := Link b;
     UserID := UserID b; Date_ := Some d |}.

Definition IsPlain (b : InlineBlock) : bool :=
  bool_decide (AttrFlags b = 0%Z) && bool_decide (Link b = EmptyString)
  && bool_decide (UserID b = EmptyString) && bool_decide (Date_ b = None).

(** [parseAttribute] mutates the block [b] points to and returns an
    [error]; here it returns the block after the call together with the
    error ([None] is nil). *)
Definition parseAttribute (b : InlineBlock) (a : list value)
    : exec (InlineBlock * option error) :=
  match a with
  | [] => Done (b, Some (Errorf "attribute array is empty" []))
  | a0 :: rest =>
    match a0 with
    | VString s =>
      match rest with
      | [] =>
        if String.eqb s "b" then Done (orFlag b AttrBold, None)
        else if String.eqb s "i" then Done (orFlag b AttrItalic, None)
        else if String.eqb s "s" then Done (orFlag b AttrStrikeThrought, None)
        else if String.eqb s "c" then Done (orFlag b AttrCode, None)
        else Done (b, Some (Errorf "unexpected attribute '%s'" [ArgString s]))
      | [a1] =>
        if String.eqb s "a" || String.eqb s "u" then
          match a1 with
          | VString v =>
            if String.eqb s "a" then Done (setLink b v, None)
            else if String.eqb s "u" then Done (setUserID b v, None)
            else Done (b, None)
          | _ =>
            (* the message formats [v], the zero string, twice *)
            Done (b, Some (Errorf
              "value for 'a' attribute is not string. Type: %T, value: %#v"
              [ArgString EmptyString; ArgString EmptyString]))
          end
        else if String.eqb s "d" then
          match a1 with
          | VObject v =>
            match decodeDate v with
            | inl err => Panic (PanicError err)
            | inr d => Done (setDate b d, None)
            end
          | _ => Panic (TypeAssertionFailed "map[string]interface {}" a1)
          end
        else Done (b, Some (Errorf "unexpected attribute '%s'" [ArgString s]))
      | _ :: _ :: _ =>
        Done (b, Some (Errorf "len(a) is %d and should be 2"
                         [ArgInt (Z.of_nat (length a))]))
      end
    | _ =>
      Done (b, Some (Errorf
        "a[0] is not string. a[0] is of type %T and value %#v"
        [ArgValue a0; ArgValue (VArray a)]))
    end
  end.

Fixpoint parseAttributes (b : InlineBlock) (a : list value)
    : exec (InlineBlock * option error) :=
  match a with
  | [] => Done (b, None)
  | rawAttr :: a' =>
    match rawAttr with
    | VArray attrList =>
      match parseAttribute b attrList with
      | Done (b', None) => parseAttributes b' a'
      | Done (b', Some err) => Done (b', Some err)
      | Panic p => Panic p
      | OutOfFuel => OutOfFuel
      end
    | _ =>
      Done (b, Some (Errorf "rawAttr is not []interface{} but %T of value %#v"
                       [ArgValue rawAttr; ArgValue rawAttr]))
    end
  end.

(** [parseInlineBlock] returns a pointer to an [InlineBlock] and an [error]. *)
Definition parseInlineBlock (a : list value)
    : exec (option InlineBlock * option error) :=
  match a with
  | [] => Done (None, Some (Errorf "a is empty" []))
  | [a0] =>
    match a0 with
    | VString s => Done (Some (newInlineBlock s), None)
    | _ =>
      Done (None, Some (Errorf
        "a is of length 1 but not string. a[0] el type: %T, el value: '%#v'"
        [ArgValue a0; ArgValue a0]))
    end
  | [a0; a1] =>
    match a0 with
    | VString s =>
      let res := newInlineBlock s in
      match a1 with
      | VArray a' =>
        match parseAttributes res a' with
        | Done (_, Some err) => Done (None, Some err)
        | Done (res', None) => Done (Some res', None)
        | Panic p => Panic p
        | OutOfFuel => OutOfFuel
        end
      | _ =>
        (* [a, ok = a[1].([]interface{})] has set [a] to nil, so reading
           [a[1]] for the message is out of range *)
        Panic (IndexOutOfRange 1 0)
      end
    | _ =>
      Done (None, Some (Errorf "a[0] is not string. a[0] type: %T, value: '%#v'"
                          [ArgValue a0; ArgValue a0]))
    end
  | _ =>
    Done (None, Some (Errorf "a is of length != 2. a value: '%#v'"
                        [ArgValue (VArray a)]))
  end.

(** The loop of [parseInlineBlocks]: [res] is the slice of pointers built so
    far.  A nil slice and an empty one are both [[]]. *)
Fixpoint parseInlineBlocks_loop (res : list (option InlineBlock))
    (a : list value) : exec (list (option InlineBlock) * option error) :=
  match a with
  | [] => Done (res, None)
  | v :: a' =>
    match v with
    | VArray a2 =>
      match parseInlineBlock a2 with
      | Done (block, None) => parseInlineBlocks_loop (res ++ [block]) a'
      | Done (_, Some err) => Done ([], Some err)
      | Panic p => Panic p
      | OutOfFuel => OutOfFuel
      end
    | _ =>
      Done ([], Some (Errorf "v is not []interface{}. v type: %T, value: '%#v'"
                        [ArgValue v; ArgValue v]))
    end
  end.

Definition parseInlineBlocks (raw : value)
    : exec (list (option InlineBlock) * option error) :=
  match raw with
  | VArray a =>
    match a with
    | [] => Done ([], Some (Errorf "raw is empty" []))
    | _ => parseInlineBlocks_loop [] a
    end
  | _ =>
    Done ([], Some (Errorf "raw is not of []interface{}. raw type: %T, value: '%#v'"
                      [ArgValue raw; ArgValue raw]))
  end.

(** *** The input shape of the format, as the specification words it

    A non-empty array of span entries; a span entry is [[text]] or
    [[text, attrs]]; [attrs] is an array of attribute entries; an attribute
    entry is [[code]] with a flag code, or [[code, value]] with ["a"] or
    ["u"] and a string, or ["d"] and a date object that decodes. *)

Definition decodes (m : gmap string value) : bool :=
  match decodeDate m with inl _ => false | inr _ => true end.

Definition is_flag_code (code : string) : bool :=
  String.eqb code "b" || String.eqb code "i" || String.eqb code "s"
  || String.eqb code "c".

Definition attribute_entry_ok (e : value) : bool :=
  match e with
  | VArray [VString code] => is_flag_code code
  | VArray [VString code; VString _] =>
    String.eqb code "a" || String.eqb code "u"
  | VArray [VString code; VObject m] =>
    String.eqb code "d" && decodes m
  | _ => false
  end.

Definition span_entry_ok (e : value) : bool :=
  match e with
  | VArray [VString _] => true
  | VArray [VString _; VArray attrs] => forallb attribute_entry_ok attrs
  | _ => false
  end.

Definition rich_text_ok (raw : value) : bool :=
  match raw with
  | VArray (e :: es) => forallb span_entry_ok (e :: es)
  | _ => false
  end.

(** Every two-element attribute entry with code ["d"] carries a JSON
    object, respectively an object that decodes to a [Date]. *)
Definition date_entry_has_object (e : value) : bool :=
  match e with
  | VArray [VString code; v] =>
    negb (String.eqb code "d") || (if v is VObject _ then true else false)
  | _ => true
  end.

Definition date_entry_decodes (e : value) : bool :=
  match e with
  | VArray [VString code; VObject m] =>
    negb (String.eqb code "d") || decodes m
  | _ => true
  end.

Definition in_attribute_entries (P : value → bool) (raw : value) : bool :=
  match raw with
  | VArray spans =>
    forallb (λ e, match e with
                  | VArray [_; VArray attrs] => forallb P attrs
                  | _ => true
                  end) spans
  | _ => true
  end.

(** The second element of every two-element span entry that leads with a
    string is an array. *)
Definition span_attrs_is_array (e : value) : bool :=
  match e with
  | VArray [VString _; a1] => if a1 is VArray _ then true else false
  | _ => true
  end.

Definition attrs_are_arrays (raw : value) : bool :=
  match raw with
  | VArray spans => forallb span_attrs_is_array spans
  | _ => true
  end.

Definition dates_have_objects : value → bool :=
  in_attribute_entries date_entry_has_object.
Definition dates_decode : value → bool :=
  in_attribute_entries date_entry_decodes.

End Parser.

Arguments Text {Date} _.
Arguments AttrFlags {Date} _.
Arguments Link {Date} _.
Arguments UserID {Date} _.
Arguments Date_ {Date} _.
Arguments mkInlineBlock {Date} _ _ _ _ _.
Arguments newInlineBlock {Date} _.
Arguments IsPlain {Date} _.
Arguments parseAttribute {Date} _ _ _.
Arguments parseAttributes {Date} _ _ _.
Arguments parseInlineBlock {Date} _ _.
Arguments parseInlineBlocks_loop {Date} _ _ _.
Arguments parseInlineBlocks {Date} _ _.
Arguments decodes {Date} _ _.
Arguments attribute_entry_ok {Date} _ _.
Arguments span_entry_ok {Date} _ _.
Arguments rich_text_ok {Date} _ _.
Arguments date_entry_decodes {Date} _ _.
Arguments dates_decode {Date} _ _.

(** The text a span entry leads with, and the flag a one-element attribute
    entry stands for ([0] when it stands for none). *)
Definition entry_text (e : value) : option string :=
  match e with
  | VArray (VString s :: _) => Some s
  | _ => None
  end.

Definition entry_flag (a : list value) : AttrFlag :=
  match a with
  | [VString code] =>
    if String.eqb code "b" then AttrBold
    else if String.eqb code "i" then AttrItalic
    else if String.eqb code "s" then AttrStrikeThrought
    else if String.eqb code "c" then AttrCode
    else 0%Z
  | _ => 0%Z
  end.

(** *** Blocks *)

(** [time.Unix(sec, nsec)], kept as the pair it was made from. *)
Record Time : Type := Unix { unix_sec : Z; unix_nsec : Z }.

Module Block.

(** [Block], with the fields that come from JSON as scalars, strings and
    lists of strings.  The raw format, the permissions, the properties and
    the fields computed on resolution are read by no method below. *)
Record t : Type := {
  Alive : bool;
  ContentIDs : list string;
  CopiedFrom : string;
  CollectionID : string;
  CreatedBy : string;
  CreatedTime : Z;
  DiscussionIDs : list string;
  FileIDs : list string;
  ID : string;
  IgnoreBlockCount : bool;
  LastEditedBy : string;
  LastEditedTime : Z;
  ParentID : string;
  ParentTable : string;
  Type_ : string;
  Version : Z;
  ViewIDs : list string;
}.

Section Methods.

(** The block types and the table name are constants of the package that
    are declared in a file not among the sources at hand. *)
Variables BlockPage BlockImage BlockCode TableSpace : string.

(** Division of [int64] values truncates toward zero. *)
Definition CreatedOn (b : t) : Time := Unix (Z.quot (CreatedTime b) 1000) 0.

Definition UpdatedOn (b : t) : Time :=
  Unix (Z.quot (LastEditedTime b) 1000) 0.

Definition IsLinkToPage (b : t) : bool :=
  if negb (String.eqb (Type_ b) BlockPage) then false
  else String.eqb (ParentTable b) TableSpace.

Definition IsPage (b : t) : bool := String.eqb (Type_ b) BlockPage.

Definition IsImage (b : t) : bool := String.eqb (Type_ b) BlockImage.

Definition IsCode (b : t) : bool := String.eqb (Type_ b) BlockCode.

End Methods.

End Block.

End notiontypes.

(** ** Package notion: the client *)

Module notion.

(** *** Go maps and pointers

    A pointer is [None] when nil.  A Go map is nil or holds entries; reading
    and ranging over a nil map see no entry, assigning into one panics. *)
Definition gomap (V : Type) : Type := option (gmap string V).

(** [make(map[string]V, hint)].  The size hint is not part of the value; for
    maps a negative hint is not a run-time error. *)
Definition make {V} (hint : Z) : gomap V := Some ∅.

Definition entries {V} (m : gomap V) : gmap string V := default ∅ m.

(** [v, ok := m[k]] *)
Definition index {V} (m : gomap V) (k : string) : option V := entries m !! k.

(** [m[k] = v] *)
Definition assign {V} (m : gomap V) (k : string) (v : V) : exec (gomap V) :=
  match m with
  | None => Panic AssignToNilMap
  | Some es => Done (Some (<[k:=v]> es))
  end.

(** [for k, v := range src { dst[k] = v }].  Go leaves the order of the
    iteration open; [map_fold] fixes one. *)
Definition range_assign {V} (dst src : gomap V) : exec (gomap V) :=
  map_fold (λ k v acc, exec_bind acc (λ d, assign d k v)) (Done dst)
    (entries src).

(** [int] arithmetic wraps around at 64 bits. *)
Definition wrap_int (n : Z) : Z := ((n + 2 ^ 63) mod 2 ^ 64 - 2 ^ 63)%Z.

(** [strings.Split(s, sep)] for a separator of one byte: the pieces of [s]
    between the occurrences of [sep]; [n] occurrences give [n + 1] pieces. *)
Fixpoint strings_Split (s : string) (sep : ascii) : list string :=
  match s with
  | EmptyString => [EmptyString]
  | String c s' =>
    if Ascii.eqb c sep then EmptyString :: strings_Split s' sep
    else match strings_Split s' sep with
         | piece :: pieces => String c piece :: pieces
         | [] => [String c EmptyString]
         end
  end.

(** [strings.Join(pieces, sep)] *)
Fixpoint strings_Join (pieces : list string) (sep : ascii) : string :=
  match pieces with
  | [] => EmptyString
  | [p] => p
  | p :: ps => p +:+ String sep (strings_Join ps sep)
  end.

Fixpoint contains_byte (s : string) (c : ascii) : bool :=
  match s with
  | EmptyString => false
  | String c' s' => Ascii.eqb c' c || contains_byte s' c
  end.

(** The number of occurrences of the byte [c] in [s]. *)
Fixpoint count_byte (s : string) (c : ascii) : nat :=
  match s with
  | EmptyString => 0
  | String c' s' => (if Ascii.eqb c' c then 1 else 0) + count_byte s' c
  end.

(** *** What the client is linked against

    Types and functions of the repository and of its collaborators that the
    sources at hand use but do not declare. *)
Class Externals : Type := {
  (** addresses of [notiontypes.Block] objects: a [*Block] is an
      [option loc] *)
  loc : Type;
  StackPosition : Type;
  SpaceWithRole : Type;
  UserWithRole : Type;
  CollectionWithRole : Type;
  CollectionViewWithRole : Type;
}.

Section Types.
Context `{Externals}.

(** [notiontypes.BlockWithRole] *)
Record BlockWithRole : Type := {
  Role : string;
  Value : option loc;
}.

(** [notiontypes.RecordMap], with the fields [mergeRecordMaps] names. *)
Record RecordMap : Type := {
  Blocks : gomap (option BlockWithRole);
  Space : gomap (option SpaceWithRole);
  Users : gomap (option UserWithRole);
  Collections : gomap (option CollectionWithRole);
  CollectionViews : gomap (option CollectionViewWithRole);
}.

(** [Cursor], with the field [GetBlock] names. *)
Record Cursor : Type := { Stack : list (list StackPosition) }.

Record loadPageChunkRequest : Type := {
  lp_PageID : string;
  lp_Limit : Z;
  lp_Cursor : Cursor;
  lp_VerticalColumns : bool;
}.

Record loadPageChunkResponse : Type := {
  r_RecordMap : RecordMap;
  r_Cursor : Cursor;
}.

Record operation : Type := {
  op_ID : string;
  op_Table : string;
  op_Path : list string;
  op_Command : string;
  op_Args : list (list string);
}.

Record submitTransactionRequest : Type := {
  Operations : list (option operation);
}.

(** [Page], with the field [GetPage] names. *)
Record Page : Type := { Block : option loc }.

(** The payloads [c.post] is called with. *)
Inductive payload : Type :=
  | LoadPageChunk (lp : loadPageChunkRequest)
  | SubmitTransaction (st : submitTransactionRequest).

End Types.

(** Stateful code: a function of the world [W] that returns, panics or runs
    out of fuel, and leaves a world behind. *)
Definition M (W A : Type) : Type := W → exec A * W.

Definition ret {W A} (a : A) : M W A := λ w, (Done a, w).

Definition bind {W A B} (m : M W A) (k : A → M W B) : M W B :=
  λ w, match m w with
       | (Done a, w') => k a w'
       | (Panic p, w') => (Panic p, w')
       | (OutOfFuel, w') => (OutOfFuel, w')
       end.

Definition lift {W A} (e : exec A) : M W A := λ w, (e, w).

Declare Scope notion_scope.
Notation "x <- m ;; k" := (bind m (λ x, k))
  (at level 100, m at next level, right associativity) : notion_scope.
Local Open Scope notion_scope.

(** The collaborators. *)
Class Runtime `{Externals} : Type := {
  (** the bytes of a response *)
  body : Type;
  (** everything a call can change: the remote service and the heap of
      [Block] objects *)
  World : Type;
  (** [c.post(payload, pattern)]: one HTTP round trip *)
  post : payload → string → M World (body * option error);
  (** [json.Unmarshal(b, r)] into a fresh [loadPageChunkResponse] *)
  Unmarshal : body → M World (loadPageChunkResponse * option error);
  (** [notiontypes.ResolveBlock(block, blocks)] *)
  ResolveBlock :
    option loc → gmap string (option loc) → M World (option error);
}.

Section Client.
Context `{Runtime}.

(** One pass of [for _, rm := range rms]. *)
Definition merge_into (result rm : RecordMap) : exec RecordMap :=
  exec_bind (range_assign (Blocks result) (Blocks rm)) (λ blocks,
  exec_bind (range_assign (Space result) (Space rm)) (λ space,
  exec_bind (range_assign (Users result) (Users rm)) (λ users,
  exec_bind (range_assign (Collections result) (Collections rm)) (λ colls,
  exec_bind (range_assign (CollectionViews result) (CollectionViews rm))
    (λ views,
  Done {| Blocks := blocks; Space := space; Users := users;
          Collections := colls; CollectionViews := views |}))))).

Fixpoint merge_loop (result : RecordMap) (rms : list RecordMap)
    : exec RecordMap :=
  match rms with
  | [] => Done result
  | rm :: rms' => exec_bind (merge_into result rm) (λ r, merge_loop r rms')
  end.

Definition mergeRecordMaps (rms : list RecordMap)
    : exec (RecordMap * option error) :=
  let result :=
    {| Blocks := make (wrap_int (wrap_int (50 * Z.of_nat (length rms)) - 1));
       Space := make 0;
       Users := make 0;
       Collections := make 0;
       CollectionViews := make 0 |} in
  exec_bind (merge_loop result rms) (λ result, Done (result, None)).

(** [v.Value] through a pointer [v] *)
Definition deref {A} (p : option A) : exec A :=
  match p with
  | None => Panic NilDereference
  | Some a => Done a
  end.

(** [for k, v := range rm.Blocks { blocks[k] = v.Value }] into a map made
    for the purpose. *)
Definition block_values (m : gomap (option BlockWithRole))
    : exec (gmap string (option loc)) :=
  map_fold (λ k v acc,
      exec_bind acc (λ blocks,
      exec_bind (deref v) (λ v, Done (<[k:=Value v]> blocks))))
    (Done ∅) (entries m).

Definition parseBlockFromRecordMaps (blockID : string)
    (responses : list RecordMap) : M World (option loc * option error) :=
  merged <- lift (mergeRecordMaps responses) ;;
  let '(rm, err) := merged in
  match err with
  | Some err => ret (None, Some err)
  | None =>
    match index (Blocks rm) blockID with
    | None =>
      ret (None, Some (Errorf "notion: missing block id in block list" []))
    | Some blockBlock =>
      blockBlock <- lift (deref blockBlock) ;;
      let block := Value blockBlock in
      blocks <- lift (block_values (Blocks rm)) ;;
      err <- ResolveBlock block blocks ;;
      match err with
      | Some err => ret (None, Some (Wrap err "resolveBlock failed"))
      | None => ret (block, None)
      end
    end
  end.

(** The [for] loop of [GetBlock].  It ends by leaving [GetBlock] with an
    error ([inl]) or by [break] with the record maps collected ([inr]). *)
Fixpoint GetBlock_loop (fuel : nat) (lp : loadPageChunkRequest)
    (results : list RecordMap) : M World (error + list RecordMap) :=
  match fuel with
  | O => lift OutOfFuel
  | S fuel' =>
    posted <- post (LoadPageChunk lp) "loadPageChunk" ;;
    let '(b, err) := posted in
    match err with
    | Some err => ret (inl err)
    | None =>
      decoded <- Unmarshal b ;;
      let '(r, err) := decoded in
      match err with
      | Some err => ret (inl (Wrap err "unmarshaling loadPageChunkResponse"))
      | None =>
        let results := results ++ [r_RecordMap r] in
        let lp := {| lp_PageID := lp_PageID lp; lp_Limit := lp_Limit lp;
                     lp_Cursor := r_Cursor r;
                     lp_VerticalColumns := lp_VerticalColumns lp |} in
        if bool_decide (length (Stack (r_Cursor r)) = 0) then ret (inr results)
        else GetBlock_loop fuel' lp results
      end
    end
  end.

Definition GetBlock (fuel : nat) (blockID : string)
    : M World (option loc * option error) :=
  let lp := {| lp_PageID := blockID; lp_Limit := 50;
               lp_Cursor := {| Stack := [] |};
               lp_VerticalColumns := false |} in
  r <- GetBlock_loop fuel lp [] ;;
  match r with
  | inl err => ret (None, Some err)
  | inr results => parseBlockFromRecordMaps blockID results
  end.

Definition GetPage (fuel : nat) (pageId : string)
    : M World (option Page * option error) :=
  got <- GetBlock fuel pageId ;;
  let '(b, err) := got in
  ret (Some {| Block := b |}, err).

Definition UpdateBlock (blockID path value : string)
    : M World (option error) :=
  let lp :=
    {| Operations :=
         [Some {| op_ID := blockID;
                  op_Table := "block";
                  op_Path := strings_Split path ".";
                  op_Command := "set";
                  op_Args := [[value]] |}] |} in
  posted <- post (SubmitTransaction lp) "submitTransaction" ;;
  let '(b, err) := posted in
  match err with
  | Some err => ret (Some err)
  | None => ret None
  end.

(** *** Vocabulary of the specification of the merge *)

(** [rm] is key-wise last-write-wins for the category [cat] of the sequence
    [rms]: its keys are the keys of the inputs, and a key holds the value
    of the last input in sequence order that contains it. *)
Definition last_write_wins {V} (cat : RecordMap → gomap V)
    (rms : list RecordMap) (rm : RecordMap) : Prop :=
  (∀ k, is_Some (index (cat rm) k) ↔
        ∃ i m, rms !! i = Some m ∧ is_Some (index (cat m) k)) ∧
  (∀ k i m v,
     rms !! i = Some m → index (cat m) k = Some v →
     (∀ j m', i < j → rms !! j = Some m' → index (cat m') k = None) →
     index (cat rm) k = Some v).

(** The entries of a category after the loop over [rms]. *)
Definition overlay {V} (cat : RecordMap → gomap V) (rms : list RecordMap)
    (acc : gmap string V) : gmap string V :=
  foldl (λ acc rm, entries (cat rm) ∪ acc) acc rms.

(** Two record maps share no key in any category. *)
Definition disjoint_keys (a b : RecordMap) : Prop :=
  entries (Blocks a) ##ₘ entries (Blocks b) ∧
  entries (Space a) ##ₘ entries (Space b) ∧
  entries (Users a) ##ₘ entries (Users b) ∧
  entries (Collections a) ##ₘ entries (Collections b) ∧
  entries (CollectionViews a) ##ₘ entries (CollectionViews b).

(** A record map that holds no entry: nil and empty categories alike. *)
Definition no_entries (rm : RecordMap) : Prop :=
  entries (Blocks rm) = ∅ ∧ entries (Space rm) = ∅ ∧
  entries (Users rm) = ∅ ∧ entries (Collections rm) = ∅ ∧
  entries (CollectionViews rm) = ∅.

End Client.

End notion.

(** ** A scripted service

    A stand-in for the remote service, as a test would stub it: it answers
    the calls from a script, one reply per call, and logs what it was sent. *)

Module stub.
Import notion.

(** The date decoder of the stub: it keeps the object. *)
Definition keepDate (m : gmap string value)
    : error + gmap string value := inr m.

#[export] Instance externals : Externals := {|
  loc := positive;
  StackPosition := string;
  SpaceWithRole := string;
  UserWithRole := string;
  CollectionWithRole := string;
  CollectionViewWithRole := string;
|}.

Inductive reply : Type :=
  | Chunk (r : loadPageChunkResponse)
  | NotJSON
  | Status (code : Z).

Record world : Type := {
  script : list reply;
  log : list (payload * string);
}.

Definition stub_post (p : payload) (pattern : string)
    : M world (reply * option error) :=
  λ w,
    let log' := log w ++ [(p, pattern)] in
    match script w with
    | [] => (Done (NotJSON, Some (External "performing request")),
             {| script := []; log := log' |})
    | Status code :: rest =>
      (Done (Status code,
             if bool_decide (code = 200%Z) then None
             else Some (External "unexpected status")),
       {| script := rest; log := log' |})
    | r :: rest => (Done (r, None), {| script := rest; log := log' |})
    end.

Definition emptyRecordMap : RecordMap :=
  {| Blocks := None; Space := None; Users := None; Collections := None;
     CollectionViews := None |}.

Definition stub_Unmarshal (b : reply)
    : M world (loadPageChunkResponse * option error) :=
  match b with
  | Chunk r => ret (r, None)
  | _ =>
    ret ({| r_RecordMap := emptyRecordMap; r_Cursor := {| Stack := [] |} |},
         Some (External "invalid character"))
  end.

(** Resolution in the stub succeeds for a non-nil block that is in the map. *)
Definition stub_ResolveBlock (block : option loc)
    (blocks : gmap string (option loc)) : M world (option error) :=
  match block with
  | Some l =>
    if bool_decide (map_Exists (λ _ v, v = Some l) blocks) then ret None
    else ret (Some (External "block not in map"))
  | None => lift (Panic NilDereference)
  end.

(** The request [GetBlock] sends for the block [blockID] with cursor [c]. *)
Definition chunk_request (blockID : string) (limit : Z) (columns : bool)
    (c : Cursor) : payload * string :=
  (LoadPageChunk {| lp_PageID := blockID; lp_Limit := limit; lp_Cursor := c;
                    lp_VerticalColumns := columns |},
   "loadPageChunk").

(** Fixtures: three pages of a block "root" with two children. *)
Definition editor (l : positive) : BlockWithRole :=
  {| Role := "editor"; Value := Some l |}.

Definition page (id : string) (l : positive) (stack : list (list string))
    : loadPageChunkResponse :=
  {| r_RecordMap :=
       {| Blocks := Some {[ id := Some (editor l) ]};
          Space := None; Users := None; Collections := None;
          CollectionViews := None |};
     r_Cursor := {| Stack := stack |} |}.

Definition page1 := page "root" 1 [["root-1"]].
Definition page2 := page "child-a" 2 [["root-2"]].
Definition page3 := page "child-b" 3 [].

(** The three record maps of the fixture, merged. *)
Definition merged_pages : RecordMap :=
  {| Blocks := Some (<["child-b" := Some (editor 3)]>
                    (<["child-a" := Some (editor 2)]>
                    (<["root" := Some (editor 1)]> ∅)));
     Space := Some ∅; Users := Some ∅; Collections := Some ∅;
     CollectionViews := Some ∅ |}.

(** More fixtures: a response whose blocks hold a JSON null besides the
    root, the root sent twice, and a block of type "page". *)
Definition ghost_page : RecordMap :=
  {| Blocks := Some (<["ghost" := None]> {[ "root" := Some (editor 1) ]});
     Space := None; Users := None; Collections := None;
     CollectionViews := None |}.

Definition merged_ghost : RecordMap :=
  {| Blocks := Some (<["ghost" := None]> (<["root" := Some (editor 1)]> ∅));
     Space := Some ∅; Users := Some ∅; Collections := Some ∅;
     CollectionViews := Some ∅ |}.

Definition root_again := page "root" 7 [].

Definition merged_again : RecordMap :=
  {| Blocks := Some (<["root" := Some (editor 7)]> ∅);
     Space := Some ∅; Users := Some ∅; Collections := Some ∅;
     CollectionViews := Some ∅ |}.

(** A span with styles and a user mention, and the attributes it comes
    from. *)
Definition styled : notiontypes.InlineBlock (gmap string value) :=
  {| notiontypes.Text := "t"; notiontypes.AttrFlags := 5%Z;
     notiontypes.Link := EmptyString; notiontypes.UserID := "u-1";
     notiontypes.Date_ := None |}.

Definition styled_attrs : list value :=
  [VArray [VString "i"]; VArray [VString "b"];
   VArray [VString "u"; VString "u-0"]; VArray [VString "i"];
   VArray [VString "u"; VString "u-1"]].

Definition sample_block : notiontypes.Block.t :=
  {| notiontypes.Block.Alive := true;
     notiontypes.Block.ContentIDs := ["child-a"; "child-b"];
     notiontypes.Block.CopiedFrom := EmptyString;
     notiontypes.Block.CollectionID := EmptyString;
     notiontypes.Block.CreatedBy := "user-1";
     notiontypes.Block.CreatedTime := 1540000000123;
     notiontypes.Block.DiscussionIDs := [];
     notiontypes.Block.FileIDs := [];
     notiontypes.Block.ID := "root";
     notiontypes.Block.IgnoreBlockCount := false;
     notiontypes.Block.LastEditedBy := "user-1";
     notiontypes.Block.LastEditedTime := 1540000060999;
     notiontypes.Block.ParentID := "space-1";
     notiontypes.Block.ParentTable := "space";
     notiontypes.Block.Type_ := "page";
     notiontypes.Block.Version := 12;
     notiontypes.Block.ViewIDs := [] |}.

#[export] Instance runtime : Runtime := {|
  body := reply;
  World := world;
  post := stub_post;
  Unmarshal := stub_Unmarshal;
  ResolveBlock := stub_ResolveBlock;
|}.

End stub.

(** ** Block resolution, from the specification *)

Module resolver.
Import notion stub.

Section Resolver.

(** The date decoder of the inline parser, the set of block types that carry
    rich text, and the fuel of the recursion. *)
Variable Date : Type.
Variable decodeDate : gmap string value → error + Date.
Variable rich_text_kind : string → bool.
Variable fuel : nat.

(** A [notiontypes.Block] object in memory: the fields decoded from JSON,
    the properties, and the two fields computed on resolution. *)
Record cell : Type := {
  fields : notiontypes.Block.t;
  Properties : gmap string value;
  Content : list positive;
  InlineContent : list (option (notiontypes.InlineBlock Date));
}.

Definition set_Content (c : cell) (content : list positive) : cell :=
  {| fields := fields c; Properties := Properties c; Content := content;
     InlineContent := InlineContent c |}.

Definition set_InlineContent (c : cell)
    (spans : list (option (notiontypes.InlineBlock Date))) : cell :=
  {| fields := fields c; Properties := Properties c; Content := Content c;
     InlineContent := spans |}.

(** The heap of block objects, and the world of this runtime: the scripted
    service and the heap. *)
Record world : Type := {
  service : stub.world;
  heap : gmap positive cell;
}.

(** What a resolution call works on: the heap and the ids it has resolved. *)
Definition state : Type := gmap positive cell * gset string.

(** Modelled from the spec: step 2 of the resolver's algorithm, which is
    part of [notiontypes.ResolveBlock], a function that is not among the
    sources.  "For each id in contentIDs, resolve it (recursively) and
    append the resulting Block pointer, preserving the original order; a
    missing child id is a hard failure."  The algorithm is "memoized by id":
    an id that has been resolved in this call is not resolved again. *)
Fixpoint resolve_children
    (resolve : positive → state → exec (option error) * state)
    (blocks : gmap string (option positive)) (ids : list string)
    (content : list positive) (σ : state)
    : exec (error + list positive) * state :=
  match ids with
  | [] => (Done (inr content), σ)
  | id :: ids' =>
    match blocks !! id with
    | Some (Some child) =>
      if decide (id ∈ σ.2) then
        resolve_children resolve blocks ids' (content ++ [child]) σ
      else
        match resolve child σ with
        | (Done None, (h, memo)) =>
          resolve_children resolve blocks ids' (content ++ [child])
            (h, {[id]} ∪ memo)
        | (Done (Some err), σ') => (Done (inl err), σ')
        | (Panic p, σ') => (Panic p, σ')
        | (OutOfFuel, σ') => (OutOfFuel, σ')
        end
    | _ => (Done (inl (Errorf "missing block id %s" [ArgString id])), σ)
    end
  end.

(** Modelled from the spec: step 3 of the resolver's algorithm, part of the
    absent [notiontypes.ResolveBlock].  "For blocks whose type indicates a
    rich-text-bearing kind, decode the nested properties.title through the
    inline rich-text parser and store the result in inlineContent"; a parse
    failure fails the whole resolution. *)
Definition resolve_inline (c : cell) : exec (error + cell) :=
  if rich_text_kind (notiontypes.Block.Type_ (fields c)) then
    match Properties c !! "title" with
    | Some raw =>
      match notiontypes.parseInlineBlocks decodeDate raw with
      | Done (spans, None) => Done (inr (set_InlineContent c spans))
      | Done (_, Some err) => Done (inl err)
      | Panic p => Panic p
      | OutOfFuel => OutOfFuel
      end
    | None => Done (inr c)
    end
  else Done (inr c).

(** Modelled from the spec: the recursion of the absent
    [notiontypes.ResolveBlock] on one block: its children are resolved and
    become its content, then its rich text is parsed.  There is no guard
    against a cycle: on one the recursion does not end, and the model runs
    out of fuel. *)
Fixpoint resolve (n : nat) (blocks : gmap string (option positive))
    (l : positive) (σ : state) : exec (option error) * state :=
  match n with
  | O => (OutOfFuel, σ)
  | S n' =>
    match σ.1 !! l with
    | None => (Panic NilDereference, σ)
    | Some c =>
      match resolve_children (resolve n' blocks) blocks
              (notiontypes.Block.ContentIDs (fields c)) [] σ with
      | (Done (inr content), (h, memo)) =>
        match h !! l with
        | None => (Panic NilDereference, (h, memo))
        | Some c' =>
          match resolve_inline (set_Content c' content) with
          | Done (inr c'') => (Done None, (<[l:=c'']> h, memo))
          | Done (inl err) =>
            (Done (Some err), (<[l:=set_Content c' content]> h, memo))
          | Panic p => (Panic p, (<[l:=set_Content c' content]> h, memo))
          | OutOfFuel => (OutOfFuel, (h, memo))
          end
        end
      | (Done (inl err), σ') => (Done (Some err), σ')
      | (Panic p, σ') => (Panic p, σ')
      | (OutOfFuel, σ') => (OutOfFuel, σ')
      end
    end
  end.

(** Modelled from the spec: [notiontypes.ResolveBlock(block, blocks)], which
    is not among the sources.  A nil root is a missing block. *)
Definition ResolveBlock_spec (block : option positive)
    (blocks : gmap string (option positive)) : M world (option error) :=
  λ w,
    match block with
    | None => (Done (Some (Errorf "missing block id" [])), w)
    | Some l =>
      let '(r, (h, _)) := resolve fuel blocks l (heap w, ∅) in
      (r, {| service := service w; heap := h |})
    end.

(** The transport of this runtime is the scripted service. *)
Definition on_service {A} (m : M stub.world A) : M world A :=
  λ w, let '(r, s) := m (service w) in (r, {| service := s; heap := heap w |}).

Definition runtime : Runtime := {|
  body := reply;
  World := world;
  post := λ p pattern, on_service (stub_post p pattern);
  Unmarshal := λ b, on_service (stub_Unmarshal b);
  ResolveBlock := ResolveBlock_spec;
|}.

(** *** What "fully linked" means *)

(** The content of a block is the blocks of its content ids, in order. *)
Definition linked_at (blocks : gmap string (option positive)) (c : cell)
    : Prop :=
  Forall2 (λ id p, blocks !! id = Some (Some p))
    (notiontypes.Block.ContentIDs (fields c)) (Content c).

(** The blocks of the tree under [root]: what its content pointers lead
    to. *)
Inductive reachable (h : gmap positive cell) (root : positive)
    : positive → Prop :=
  | reach_root : reachable h root root
  | reach_child x c y :
      reachable h root x → h !! x = Some c → y ∈ Content c →
      reachable h root y.

Definition fully_linked (h : gmap positive cell)
    (blocks : gmap string (option positive)) (root : positive) : Prop :=
  ∀ x, reachable h root x → ∃ c, h !! x = Some c ∧ linked_at blocks c.

(** The invariant of a resolution call.  A block is resolved when it is
    linked and the ids of its children are recorded; every recorded id
    names a resolved block.  A later state extends an earlier one when it
    has recorded at least the same ids and holds the same objects with the
    same decoded fields. *)
Definition resolved (blocks : gmap string (option positive)) (σ : state)
    (p : positive) : Prop :=
  ∃ c, σ.1 !! p = Some c ∧ linked_at blocks c ∧
       Forall (λ id, id ∈ σ.2) (notiontypes.Block.ContentIDs (fields c)).

Definition memo_ok (blocks : gmap string (option positive)) (σ : state)
    : Prop :=
  ∀ id, id ∈ σ.2 → ∃ p, blocks !! id = Some (Some p) ∧ resolved blocks σ p.

Definition extends (σ σ' : state) : Prop :=
  σ.2 ⊆ σ'.2 ∧ ∀ l, fields <$> σ'.1 !! l = fields <$> σ.1 !! l.

(** The map [parseBlockFromRecordMaps] hands to [ResolveBlock]. *)
Definition blocks_of (rm : RecordMap) : gmap string (option positive) :=
  (λ v : option BlockWithRole, v ≫= Value) <$> entries (Blocks rm).

End Resolver.

Arguments fields {Date} _.
Arguments Properties {Date} _.
Arguments Content {Date} _.
Arguments InlineContent {Date} _.
Arguments set_Content {Date} _ _.
Arguments set_InlineContent {Date} _ _.
Arguments service {Date} _.
Arguments heap {Date} _.
Arguments linked_at {Date} _ _.
Arguments reachable {Date} _ _ _.
Arguments fully_linked {Date} _ _ _.
Arguments resolved {Date} _ _ _.
Arguments memo_ok {Date} _ _.
Arguments extends {Date} _ _.
Arguments resolve {Date} _ _ _ _ _ _.
Arguments resolve_children {Date} _ _ _ _ _.
Arguments resolve_inline {Date} _ _ _.
Arguments ResolveBlock_spec {Date} _ _ _ _ _.
Arguments runtime {Date} _ _ _.

(** Fixtures: the objects of the three-page fixture before resolution.  The
    root lists its two children; the children are text blocks with a
    title. *)
Definition text_kind (type : string) : bool := String.eqb type "text".

Definition block_of (id type : string) (contentIDs : list string)
    : notiontypes.Block.t :=
  {| notiontypes.Block.Alive := true;
     notiontypes.Block.ContentIDs := contentIDs;
     notiontypes.Block.CopiedFrom := EmptyString;
     notiontypes.Block.CollectionID := EmptyString;
     notiontypes.Block.CreatedBy := "user-1";
     notiontypes.Block.CreatedTime := 1540000000123;
     notiontypes.Block.DiscussionIDs := [];
     notiontypes.Block.FileIDs := [];
     notiontypes.Block.ID := id;
     notiontypes.Block.IgnoreBlockCount := false;
     notiontypes.Block.LastEditedBy := "user-1";
     notiontypes.Block.LastEditedTime := 1540000060999;
     notiontypes.Block.ParentID := "space-1";
     notiontypes.Block.ParentTable := "space";
     notiontypes.Block.Type_ := type;
     notiontypes.Block.Version := 12;
     notiontypes.Block.ViewIDs := [] |}.

Definition decoded (id type : string) (contentIDs : list string)
    (title : string) : cell (gmap string value) :=
  {| fields := block_of id type contentIDs;
     Properties := {[ "title" := VArray [VArray [VString title]] ]};
     Content := []; InlineContent := [] |}.

Definition plain (text : string)
    : option (notiontypes.InlineBlock (gmap string value)) :=
  Some {| notiontypes.Text := text; notiontypes.AttrFlags := 0%Z;
          notiontypes.Link := EmptyString; notiontypes.UserID := EmptyString;
          notiontypes.Date_ := None |}.

Definition idle : stub.world := {| script := []; log := [] |}.

Definition tree_world : world (gmap string value) :=
  {| service := idle;
     heap := <[3%positive := decoded "child-b" "text" [] "second"]>
            (<[2%positive := decoded "child-a" "text" [] "first"]>
            (<[1%positive := decoded "root" "page" ["child-a"; "child-b"]
                               "Home"]> ∅)) |}.

(** The same objects after the resolution of the root. *)
Definition linked_world : world (gmap string value) :=
  {| service := idle;
     heap := <[3%positive :=
                 set_InlineContent (decoded "child-b" "text" [] "second")
                   [plain "second"]]>
            (<[2%positive :=
                 set_InlineContent (decoded "child-a" "text" [] "first")
                   [plain "first"]]>
            (<[1%positive :=
                 set_Content
                   (decoded "root" "page" ["child-a"; "child-b"] "Home")
                   [2%positive; 3%positive]]> ∅)) |}.

(** A root without children, alone in memory. *)
Definition lone_world : world (gmap string value) :=
  {| service := idle;
     heap := {[ 1%positive := decoded "root" "page" [] "Home" ]} |}.

End resolver.

(** * Properties *)

(** ** The inline rich-text parser *)

Section ParserProperties.
Import notiontypes.
Context {Date : Type} (decodeDate : gmap string value → error + Date).

Local Ltac string_cases :=
  repeat (match goal with
          | |- context [String.eqb ?s ?c] =>
            destruct (String.eqb_spec s c); [try subst s|]
          end; simpl);
  try discriminate.

(** A well-formed attribute entry is applied to the block. *)
Lemma parseAttribute_ok (b : InlineBlock Date) (a : list value) :
  attribute_entry_ok decodeDate (VArray a) = true →
  ∃ b', parseAttribute decodeDate b a = Done (b', None).
Proof.
  destruct a as [|[| | |code| |] [|a1 [|a2 rest]]]; simpl; try discriminate.
  - unfold is_flag_code. string_cases; eauto.
  - destruct a1; try discriminate.
    + string_cases; eauto.
    + unfold decodes. destruct (decodeDate m) eqn:Hd; string_cases; eauto.
  - destruct a1; discriminate.
Qed.

(** A malformed attribute entry leaves the block alone and yields an error;
    a date object that does not decode makes [parseAttribute] panic. *)
Lemma parseAttribute_bad (b : InlineBlock Date) (a : list value) :
  attribute_entry_ok decodeDate (VArray a) = false →
  date_entry_has_object (VArray a) = true →
  (∃ err, parseAttribute decodeDate b a = Done (b, Some err)) ∨
  (∃ m err, decodeDate m = inl err ∧
            parseAttribute decodeDate b a = Panic (PanicError err) ∧
            date_entry_decodes decodeDate (VArray a) = false).
Proof.
  destruct a as [|a0 [|a1 [|a2 rest]]]; simpl; eauto.
  - destruct a0; eauto. unfold is_flag_code. string_cases; eauto.
  - destruct a0; eauto.
    destruct a1; unfold decodes; try destruct (decodeDate m) eqn:Hd;
      string_cases; eauto 10.
  - destruct a0; eauto.
Qed.

Lemma parseAttributes_ok (a : list value) (b : InlineBlock Date) :
  forallb (attribute_entry_ok decodeDate) a = true →
  ∃ b', parseAttributes decodeDate b a = Done (b', None).
Proof.
  revert b. induction a as [|e a IH]; intros b Hok; simpl in *; eauto.
  apply andb_prop in Hok as [He Ha].
  destruct e; try discriminate.
  destruct (parseAttribute_ok b _ He) as [b' ->]. eauto.
Qed.

Lemma parseAttributes_bad (a : list value) (b : InlineBlock Date) :
  forallb (attribute_entry_ok decodeDate) a = false →
  forallb date_entry_has_object a = true →
  (∃ b' err, parseAttributes decodeDate b a = Done (b', Some err)) ∨
  (∃ m err, decodeDate m = inl err ∧
            parseAttributes decodeDate b a = Panic (PanicError err) ∧
            forallb (date_entry_decodes decodeDate) a = false).
Proof.
  revert b. induction a as [|e a IH]; intros b Hbad Hobj; [discriminate|].
  cbn [forallb] in *. apply andb_prop in Hobj as [Hobj_e Hobj_a].
  destruct (attribute_entry_ok decodeDate e) eqn:He.
  - destruct e; try discriminate. cbn [parseAttributes].
    destruct (parseAttribute_ok b _ He) as [b' ->].
    destruct (IH b' Hbad Hobj_a) as [?|(m & err & ? & ? & Hdec)]; eauto.
    right. exists m, err. rewrite Hdec, andb_false_r. eauto.
  - destruct e; cbn [parseAttributes]; eauto.
    destruct (parseAttribute_bad b _ He Hobj_e)
      as [[err ->]|(m & err & ? & -> & Hdec)]; eauto.
    right. exists m, err. rewrite Hdec. eauto.
Qed.

Lemma parseInlineBlock_ok (a : list value) :
  span_entry_ok decodeDate (VArray a) = true →
  ∃ block, parseInlineBlock decodeDate a = Done (Some block, None).
Proof.
  destruct a as [|[| | |text| |] [|a1 [|a2 rest]]]; simpl; try discriminate;
    eauto.
  - destruct a1; try discriminate. intros Hok.
    destruct (parseAttributes_ok _ (newInlineBlock text) Hok) as [b' ->].
    eauto.
  - destruct a1; discriminate.
Qed.

Lemma parseInlineBlock_bad (a : list value) :
  span_entry_ok decodeDate (VArray a) = false →
  span_attrs_is_array (VArray a) = true →
  in_attribute_entries date_entry_has_object (VArray [VArray a]) = true →
  (∃ err, parseInlineBlock decodeDate a = Done (None, Some err)) ∨
  (∃ m err, decodeDate m = inl err ∧
            parseInlineBlock decodeDate a = Panic (PanicError err) ∧
            in_attribute_entries (date_entry_decodes decodeDate)
              (VArray [VArray a]) = false).
Proof.
  destruct a as [|a0 [|a1 [|a2 rest]]]; simpl; eauto.
  - destruct a0; eauto; discriminate.
  - rewrite !andb_true_r.
    destruct a0; eauto; destruct a1; eauto; try discriminate.
    intros Hbad _ Hobj.
    destruct (parseAttributes_bad _ (newInlineBlock s) Hbad Hobj)
      as [(b' & err & ->)|(m & err & ? & -> & ?)]; eauto 10.
Qed.

Lemma parseInlineBlocks_loop_ok (a : list value)
    (res : list (option (InlineBlock Date))) :
  forallb (span_entry_ok decodeDate) a = true →
  ∃ spans, parseInlineBlocks_loop decodeDate res a
             = Done (res ++ map Some spans, None)
           ∧ length spans = length a.
Proof.
  revert res. induction a as [|e a IH]; intros res Hok.
  - exists []. simpl. by rewrite app_nil_r.
  - cbn [forallb] in Hok. apply andb_prop in Hok as [He Ha].
    destruct e; try discriminate. cbn [parseInlineBlocks_loop].
    destruct (parseInlineBlock_ok _ He) as [block ->].
    destruct (IH (res ++ [Some block]) Ha) as (spans & -> & Hlen).
    exists (block :: spans). rewrite <- app_assoc. simpl. auto.
Qed.

Lemma parseInlineBlocks_loop_bad (a : list value)
    (res : list (option (InlineBlock Date))) :
  forallb (span_entry_ok decodeDate) a = false →
  forallb span_attrs_is_array a = true →
  in_attribute_entries date_entry_has_object (VArray a) = true →
  (∃ err, parseInlineBlocks_loop decodeDate res a = Done ([], Some err)) ∨
  (∃ m err, decodeDate m = inl err ∧
            parseInlineBlocks_loop decodeDate res a = Panic (PanicError err) ∧
            in_attribute_entries (date_entry_decodes decodeDate) (VArray a)
              = false).
Proof.
  revert res. induction a as [|e a IH]; intros res Hbad Harr Hobj;
    [discriminate|].
  cbn [in_attribute_entries forallb] in *.
  apply andb_prop in Hobj as [Hobj_e Hobj_a].
  apply andb_prop in Harr as [Harr_e Harr_a].
  destruct (span_entry_ok decodeDate e) eqn:He.
  - destruct e; try discriminate. cbn [parseInlineBlocks_loop].
    destruct (parseInlineBlock_ok _ He) as [block ->].
    destruct (IH (res ++ [Some block]) Hbad Harr_a Hobj_a)
      as [?|(m & err & ? & ? & Hdec)]; eauto.
    right. exists m, err. rewrite Hdec, andb_false_r. eauto.
  - destruct e; cbn [parseInlineBlocks_loop]; eauto.
    destruct (parseInlineBlock_bad a0 He Harr_e)
      as [[err ->]|(m & err & ? & -> & Hdec)]; eauto.
    { simpl. by rewrite andb_true_r. }
    right. exists m, err. simpl in Hdec. rewrite andb_true_r in Hdec.
    rewrite Hdec. eauto.
Qed.

(** Input of the shape the format prescribes is parsed into one span per
    span entry. *)
Lemma parseInlineBlocks_well_formed (raw : value) :
  rich_text_ok decodeDate raw = true →
  ∃ a spans, raw = VArray a ∧
    parseInlineBlocks decodeDate raw = Done (map Some spans, None) ∧
    length spans = length a.
Proof.
  destruct raw as [| | | |[|e a]|]; try discriminate. intros Hok.
  destruct (parseInlineBlocks_loop_ok (e :: a) [] Hok) as (spans & Hrun & ?).
  exists (e :: a), spans. auto.
Qed.

(** X22: an input that is not of the prescribed shape makes
    [parseInlineBlocks] return an error together with a nil span list,
    provided that no span entry [[text, x]] has an [x] that is not an array
    and that every ["d"] attribute entry carries a JSON object; the one
    other outcome is the panic on a date object that does not decode. *)
Theorem parseInlineBlocks_malformed_error (raw : value) :
  rich_text_ok decodeDate raw = false →
  attrs_are_arrays raw = true →
  dates_have_objects raw = true →
  (∃ err, parseInlineBlocks decodeDate raw = Done ([], Some err)) ∨
  (∃ m err, decodeDate m = inl err ∧
            parseInlineBlocks decodeDate raw = Panic (PanicError err) ∧
            dates_decode decodeDate raw = false).
Proof.
  intros Hbad Harr Hobj. destruct raw as [| | | |[|e a]|]; simpl; eauto.
  apply (parseInlineBlocks_loop_bad (e :: a) [] Hbad Harr Hobj).
Qed.

(** C3: three malformed inputs on which [parseInlineBlocks] does not return
    a decode error describing the offending value: a ["d"] attribute whose
    value is not an object, and a span entry whose second element is not an
    array, make it panic; an ["a"] attribute whose value is not a string
    makes it return an error that formats the empty string, not the
    value. *)
Theorem parseInlineBlocks_panics :
  parseInlineBlocks decodeDate
    (VArray [VArray [VString "x";
                     VArray [VArray [VString "d"; VString "2018-10-30"]]]])
  = Panic (TypeAssertionFailed "map[string]interface {}"
             (VString "2018-10-30")) ∧
  parseInlineBlocks decodeDate
    (VArray [VArray [VString "x"; VString "notarray"]])
  = Panic (IndexOutOfRange 1 0) ∧
  parseInlineBlocks decodeDate
    (VArray [VArray [VString "x";
                     VArray [VArray [VString "a"; VNumber "5"]]]])
  = Done ([], Some (Errorf
      "value for 'a' attribute is not string. Type: %T, value: %#v"
      [ArgString EmptyString; ArgString EmptyString])).
Proof. repeat split; reflexivity. Qed.

(** C5: [parseInlineBlocks] accepts a span whose attribute list holds a link
    and a user mention, and returns an [InlineBlock] with both [Link] and
    [UserID] set. *)
Theorem parseInlineBlocks_link_and_user :
  parseInlineBlocks decodeDate
    (VArray [VArray [VString "x";
                     VArray [VArray [VString "a"; VString "http://x"];
                             VArray [VString "u"; VString "user-1"]]]])
  = Done ([Some {| Text := "x"; AttrFlags := 0%Z; Link := "http://x";
                   UserID := "user-1"; Date_ := None |}], None).
Proof. reflexivity. Qed.

(** C9: parsing [[["hello"], ["world", [["b"]]]]] succeeds with exactly two
    spans in order: text "hello" without attributes, then text "world" with
    only the bold flag set. *)
Theorem parseInlineBlocks_hello_world :
  parseInlineBlocks decodeDate
    (VArray [VArray [VString "hello"];
             VArray [VString "world"; VArray [VArray [VString "b"]]]])
  = Done ([Some {| Text := "hello"; AttrFlags := 0%Z; Link := EmptyString;
                   UserID := EmptyString; Date_ := None |};
           Some {| Text := "world"; AttrFlags := AttrBold; Link := EmptyString;
                   UserID := EmptyString; Date_ := None |}], None)
  ∧ IsPlain (newInlineBlock (Date:=Date) "hello") = true
  ∧ Z.land AttrBold AttrItalic = 0%Z
  ∧ Z.land AttrBold AttrStrikeThrought = 0%Z
  ∧ Z.land AttrBold AttrCode = 0%Z.
Proof. repeat split; reflexivity. Qed.

End ParserProperties.

Lemma parseInlineBlocks_malformed_error_witness :
  let raw := VArray [VArray [VString "x"; VArray [VArray [VString "z"]]]] in
  notiontypes.rich_text_ok stub.keepDate raw = false ∧
  notiontypes.attrs_are_arrays raw = true ∧
  notiontypes.dates_have_objects raw = true ∧
  ((∃ err, notiontypes.parseInlineBlocks stub.keepDate raw
           = Done ([], Some err)) ∨
   (∃ m err, stub.keepDate m = inl err ∧
      notiontypes.parseInlineBlocks stub.keepDate raw
      = Panic (PanicError err) ∧
      notiontypes.dates_decode stub.keepDate raw = false)).
Proof.
  intros raw. split; [reflexivity|]. split; [reflexivity|].
  split; [reflexivity|].
  apply (parseInlineBlocks_malformed_error stub.keepDate raw); reflexivity.
Defined.

(** ** The record map merger *)

Section MergerProperties.
Import notion.
Context `{Externals}.

(** Copying [src] into a map that is not nil overlays its entries. *)
Lemma range_assign_union {V} (d : gmap string V) (src : gomap V) :
  range_assign (Some d) src = Done (Some (entries src ∪ d)).
Proof.
  unfold range_assign.
  apply (map_fold_weak_ind (λ r m, r = Done (Some (m ∪ d)))).
  - by rewrite (left_id_L ∅ (∪)).
  - intros k v m r _ ->. simpl. by rewrite insert_union_l.
Qed.

Lemma merge_loop_overlay (rms : list RecordMap) b s u c v :
  merge_loop {| Blocks := Some b; Space := Some s; Users := Some u;
                Collections := Some c; CollectionViews := Some v |} rms
  = Done {| Blocks := Some (overlay Blocks rms b);
            Space := Some (overlay Space rms s);
            Users := Some (overlay Users rms u);
            Collections := Some (overlay Collections rms c);
            CollectionViews := Some (overlay CollectionViews rms v) |}.
Proof.
  revert b s u c v. induction rms as [|rm rms IH]; intros; [done|].
  cbn [merge_loop]. unfold merge_into. cbn [Blocks Space Users Collections
    CollectionViews]. rewrite !range_assign_union. cbn [exec_bind].
  by rewrite IH.
Qed.

Lemma mergeRecordMaps_overlay (rms : list RecordMap) :
  mergeRecordMaps rms
  = Done ({| Blocks := Some (overlay Blocks rms ∅);
             Space := Some (overlay Space rms ∅);
             Users := Some (overlay Users rms ∅);
             Collections := Some (overlay Collections rms ∅);
             CollectionViews := Some (overlay CollectionViews rms ∅) |},
          None).
Proof.
  unfold mergeRecordMaps, make. by rewrite merge_loop_overlay.
Qed.

Lemma overlay_is_Some {V} (cat : RecordMap → gomap V) rms acc k :
  is_Some (overlay cat rms acc !! k) ↔
  is_Some (acc !! k) ∨ ∃ i m, rms !! i = Some m ∧ is_Some (index (cat m) k).
Proof.
  revert acc. induction rms as [|rm rms IH]; intros acc; simpl.
  - split; [auto|]. intros [?|(i & m & Hi & _)]; [done|].
    by rewrite lookup_nil in Hi.
  - rewrite IH, lookup_union_is_Some. split.
    + intros [[?|?]|(i & m & Hi & Hk)]; [|by left|].
      * right. by exists 0, rm.
      * right. by exists (S i), m.
    + intros [?|(i & m & Hi & Hk)]; [by left; right|].
      destruct i as [|i]; simpl in Hi.
      * injection Hi as ->. by left; left.
      * right. by exists i, m.
Qed.

Lemma overlay_none_after {V} (cat : RecordMap → gomap V) rms acc k :
  (∀ j m, rms !! j = Some m → index (cat m) k = None) →
  overlay cat rms acc !! k = acc !! k.
Proof.
  revert acc. induction rms as [|rm rms IH]; intros acc Hnone; [done|].
  simpl. rewrite IH.
  - rewrite lookup_union_r; [done|]. apply (Hnone 0 rm eq_refl).
  - intros j m Hj. apply (Hnone (S j) m Hj).
Qed.

Lemma overlay_last_write {V} (cat : RecordMap → gomap V) rms acc k i m v :
  rms !! i = Some m → index (cat m) k = Some v →
  (∀ j m', i < j → rms !! j = Some m' → index (cat m') k = None) →
  overlay cat rms acc !! k = Some v.
Proof.
  revert acc i. induction rms as [|rm rms IH]; intros acc i Hi Hk Hlater.
  { by rewrite lookup_nil in Hi. }
  destruct i as [|i]; simpl in Hi.
  - injection Hi as ->. simpl. rewrite overlay_none_after.
    + by apply lookup_union_Some_l.
    + intros j m' Hj. apply (Hlater (S j) m'); [lia|done].
  - simpl. apply (IH _ i Hi Hk). intros j m' Hlt Hj.
    apply (Hlater (S j) m'); [lia|done].
Qed.

Lemma overlay_last_write_wins {V} (cat : RecordMap → gomap V) rms rm :
  entries (cat rm) = overlay cat rms ∅ → last_write_wins cat rms rm.
Proof.
  intros Hrm. split.
  - intros k. unfold index at 1. rewrite Hrm, overlay_is_Some.
    rewrite lookup_empty. split; [|auto].
    intros [[? ?]|?]; [done|auto].
  - intros k i m v Hi Hk Hlater. unfold index at 1. rewrite Hrm.
    by eapply overlay_last_write.
Qed.

(** C1: for every sequence of partial record maps, [mergeRecordMaps]
    returns a record map that is key-wise last-write-wins in each of the
    five categories: a key is in the result exactly when some input has it,
    and it holds the value of the last input in sequence order that has
    the key. *)
Theorem mergeRecordMaps_last_write_wins (rms : list RecordMap) :
  ∃ rm, mergeRecordMaps rms = Done (rm, None) ∧
        last_write_wins Blocks rms rm ∧
        last_write_wins Space rms rm ∧
        last_write_wins Users rms rm ∧
        last_write_wins Collections rms rm ∧
        last_write_wins CollectionViews rms rm.
Proof.
  eexists. split; [apply mergeRecordMaps_overlay|].
  repeat split; by apply overlay_last_write_wins.
Qed.

(** C4: [mergeRecordMaps] returns for every input sequence, with a nil
    error and without a panic, and its five category maps are not nil; for
    the empty sequence they are empty as well. *)
Theorem mergeRecordMaps_total (rms : list RecordMap) :
  (∃ b s u c v,
     mergeRecordMaps rms
     = Done ({| Blocks := Some b; Space := Some s; Users := Some u;
                Collections := Some c; CollectionViews := Some v |}, None)) ∧
  mergeRecordMaps []
  = Done ({| Blocks := Some ∅; Space := Some ∅; Users := Some ∅;
             Collections := Some ∅; CollectionViews := Some ∅ |}, None).
Proof.
  split; [|apply (mergeRecordMaps_overlay [])].
  do 5 eexists. apply mergeRecordMaps_overlay.
Qed.

Lemma merged_ext (b b' : gmap string (option BlockWithRole))
    (s s' : gmap string (option SpaceWithRole))
    (u u' : gmap string (option UserWithRole))
    (c c' : gmap string (option CollectionWithRole))
    (v v' : gmap string (option CollectionViewWithRole)) :
  b = b' → s = s' → u = u' → c = c' → v = v' →
  Done ({| Blocks := Some b; Space := Some s; Users := Some u;
           Collections := Some c; CollectionViews := Some v |},
        @None error)
  = Done ({| Blocks := Some b'; Space := Some s'; Users := Some u';
             Collections := Some c'; CollectionViews := Some v' |}, None).
Proof. by intros -> -> -> -> ->. Qed.

Local Ltac category_eq Hab Hac Hbc :=
  apply map_eq; intros k; unfold overlay; cbn;
  rewrite ?lookup_union, ?lookup_empty;
  pose proof (proj1 (map_disjoint_alt _ _) Hab k);
  pose proof (proj1 (map_disjoint_alt _ _) Hac k);
  pose proof (proj1 (map_disjoint_alt _ _) Hbc k);
  repeat match goal with
  | |- context [entries ?m !! k] => destruct (entries m !! k) eqn:?
  end; simpl; intuition congruence.

(** C8: for partial record maps A, B and C whose keys are pairwise
    disjoint, merging [A, B] and then the result with [C] equals merging
    [A, B, C] in one pass, and equals merging [A] and then [B, C]; the order
    of the inputs does not matter either. *)
Theorem mergeRecordMaps_assoc_comm (A B C : RecordMap) :
  disjoint_keys A B → disjoint_keys A C → disjoint_keys B C →
  ∃ a ab bc abc,
    mergeRecordMaps [A] = Done (a, None) ∧
    mergeRecordMaps [A; B] = Done (ab, None) ∧
    mergeRecordMaps [B; C] = Done (bc, None) ∧
    mergeRecordMaps [A; B; C] = Done (abc, None) ∧
    mergeRecordMaps [ab; C] = Done (abc, None) ∧
    mergeRecordMaps [a; bc] = Done (abc, None) ∧
    mergeRecordMaps [a; B; C] = Done (abc, None) ∧
    mergeRecordMaps [A; bc] = Done (abc, None) ∧
    mergeRecordMaps [A; C; B] = Done (abc, None) ∧
    mergeRecordMaps [B; A; C] = Done (abc, None) ∧
    mergeRecordMaps [B; C; A] = Done (abc, None) ∧
    mergeRecordMaps [C; A; B] = Done (abc, None) ∧
    mergeRecordMaps [C; B; A] = Done (abc, None).
Proof.
  intros (Hab1 & Hab2 & Hab3 & Hab4 & Hab5) (Hac1 & Hac2 & Hac3 & Hac4 & Hac5)
    (Hbc1 & Hbc2 & Hbc3 & Hbc4 & Hbc5).
  do 4 eexists.
  do 4 (split; [apply mergeRecordMaps_overlay|]).
  repeat split;
    (rewrite mergeRecordMaps_overlay; apply merged_ext;
     [ category_eq Hab1 Hac1 Hbc1 | category_eq Hab2 Hac2 Hbc2
     | category_eq Hab3 Hac3 Hbc3 | category_eq Hab4 Hac4 Hbc4
     | category_eq Hab5 Hac5 Hbc5 ]).
Qed.

End MergerProperties.

(** ** The client: block resolution, pages and the mutation *)

Section ClientProperties.
Import notion.
Context `{Runtime}.

Lemma strings_Split_nonempty (s : string) (sep : ascii) :
  strings_Split s sep ≠ [].
Proof.
  destruct s as [|c s]; simpl; [done|].
  destruct (Ascii.eqb c sep); [done|].
  by destruct (strings_Split s sep).
Qed.

Lemma strings_Join_cons (p : string) (ps : list string) (sep : ascii) :
  ps ≠ [] →
  strings_Join (p :: ps) sep = p +:+ String sep (strings_Join ps sep).
Proof. by destruct ps. Qed.

(** Joining the pieces with the separator gives the string back. *)
Lemma strings_Join_Split (s : string) (sep : ascii) :
  strings_Join (strings_Split s sep) sep = s.
Proof.
  induction s as [|c s IH]; [done|]. cbn [strings_Split].
  pose proof (strings_Split_nonempty s sep) as Hne.
  destruct (Ascii.eqb_spec c sep) as [->|_].
  - rewrite strings_Join_cons by done. by rewrite IH.
  - destruct (strings_Split s sep) as [|piece [|piece' pieces]]; [done| |].
    + simpl in *. by rewrite IH.
    + rewrite strings_Join_cons in * by done. by rewrite <- IH.
Qed.

(** No piece contains the separator. *)
Lemma strings_Split_pieces (s : string) (sep : ascii) :
  Forall (λ piece, contains_byte piece sep = false) (strings_Split s sep).
Proof.
  induction s as [|c s IH]; cbn [strings_Split].
  - by repeat constructor.
  - destruct (Ascii.eqb c sep) eqn:Hc; [by constructor|].
    destruct IH as [|piece pieces Hpiece Hpieces].
    + by repeat constructor; simpl; rewrite Hc.
    + constructor; [|done]. simpl. by rewrite Hc.
Qed.

(** C7: for every block id, dotted path and value, [UpdateBlock] does one
    thing to the world: it posts one transaction holding one operation, with
    the block id, the table "block", the path split at each dot, the command
    "set" and the arguments [[value]]; the outcome of that post is its
    outcome.  Nothing is read first and no input is rejected. *)
Theorem UpdateBlock_one_set_operation (blockID path value : string)
    (w : World) :
  let op := {| op_ID := blockID; op_Table := "block";
               op_Path := strings_Split path ".";
               op_Command := "set"; op_Args := [[value]] |} in
  let sent := post (SubmitTransaction {| Operations := [Some op] |})
                "submitTransaction" w in
  UpdateBlock blockID path value w
  = (exec_bind sent.1 (λ posted, Done posted.2), sent.2)
  ∧ strings_Join (op_Path op) "." = path
  ∧ Forall (λ piece, contains_byte piece "." = false) (op_Path op).
Proof.
  intros op sent. split; [|split].
  - unfold UpdateBlock, bind. fold op. fold sent.
    destruct sent as [[[b [err|]]| |] w']; reflexivity.
  - apply strings_Join_Split.
  - apply strings_Split_pieces.
Qed.

Lemma parseBlockFromRecordMaps_unfold (blockID : string)
    (responses : list RecordMap) (w : World) :
  ∃ rm, mergeRecordMaps responses = Done (rm, None) ∧
    parseBlockFromRecordMaps blockID responses w
    = match index (Blocks rm) blockID with
      | None =>
        (Done (None, Some (Errorf "notion: missing block id in block list" [])),
         w)
      | Some None => (Panic NilDereference, w)
      | Some (Some blockBlock) =>
        match block_values (Blocks rm) with
        | Done blocks =>
          match ResolveBlock (Value blockBlock) blocks w with
          | (Done (Some err), w') =>
            (Done (None, Some (Wrap err "resolveBlock failed")), w')
          | (Done None, w') => (Done (Value blockBlock, None), w')
          | (Panic p, w') => (Panic p, w')
          | (OutOfFuel, w') => (OutOfFuel, w')
          end
        | Panic p => (Panic p, w)
        | OutOfFuel => (OutOfFuel, w)
        end
      end.
Proof.
  eexists. split; [apply mergeRecordMaps_overlay|].
  unfold parseBlockFromRecordMaps, bind, lift, ret.
  rewrite mergeRecordMaps_overlay.
  destruct (index _ blockID) as [[blockBlock|]|]; try reflexivity.
  cbn [deref]. destruct (block_values _); try reflexivity.
  by destruct (ResolveBlock _ _ w) as [[[?|]| |] ?].
Qed.

(** An error of [parseBlockFromRecordMaps] comes with a nil block. *)
Lemma parseBlockFromRecordMaps_error_nil (blockID : string)
    (responses : list RecordMap) (w w' : World) b err :
  parseBlockFromRecordMaps blockID responses w = (Done (b, Some err), w') →
  b = None.
Proof.
  destruct (parseBlockFromRecordMaps_unfold blockID responses w)
    as (rm & _ & ->).
  destruct (index _ blockID) as [[blockBlock|]|]; [|congruence..].
  destruct (block_values _); [|congruence..].
  destruct (ResolveBlock _ _ w) as [[[?|]| |] ?]; congruence.
Qed.

Lemma GetBlock_error_nil (fuel : nat) (blockID : string) (w w' : World)
    b err :
  GetBlock fuel blockID w = (Done (b, Some err), w') → b = None.
Proof.
  unfold GetBlock, bind.
  destruct (GetBlock_loop _ _ _ w) as [[[e|results]| |] w1]; try congruence.
  - unfold ret. congruence.
  - apply parseBlockFromRecordMaps_error_nil.
Qed.

(** C10: whenever [GetBlock] returns, [GetPage] returns a [Page] pointer
    that is not nil, wrapping the block [GetBlock] returned, and the same
    error; when [GetBlock] failed, the wrapped block is nil. *)
Theorem GetPage_never_nil (fuel : nat) (pageId : string) (w w' : World)
    b err :
  GetBlock fuel pageId w = (Done (b, err), w') →
  GetPage fuel pageId w = (Done (Some {| Block := b |}, err), w') ∧
  (err ≠ None → b = None).
Proof.
  intros Hget. split.
  - unfold GetPage, bind. by rewrite Hget.
  - destruct err as [e|]; [|done]. intros _.
    by eapply GetBlock_error_nil.
Qed.

End ClientProperties.

(** ** The pagination driver against the scripted service *)

Section PaginationProperties.
Import notion stub.

Lemma GetBlock_loop_script (rs : list loadPageChunkResponse)
    (last : loadPageChunkResponse) (extra : list reply) (fuel : nat)
    (lp : loadPageChunkRequest) (results : list RecordMap)
    (log0 : list (payload * string)) :
  Forall (λ r, Stack (r_Cursor r) ≠ []) rs →
  Stack (r_Cursor last) = [] →
  length rs < fuel →
  GetBlock_loop fuel lp results
    {| script := map Chunk (rs ++ [last]) ++ extra; log := log0 |}
  = (Done (inr (results ++ map r_RecordMap (rs ++ [last]))),
     {| script := extra;
        log := log0 ++
          map (chunk_request (lp_PageID lp) (lp_Limit lp)
                 (lp_VerticalColumns lp))
            (lp_Cursor lp :: map r_Cursor rs) |}).
Proof.
  intros Hrs Hlast. revert fuel lp results log0.
  induction Hrs as [|r rs Hr Hrs IH]; intros fuel lp results log0 Hfuel;
    (destruct fuel as [|fuel]; [simpl in Hfuel; lia|]).
  - destruct lp. cbn. by rewrite Hlast.
  - cbn [GetBlock_loop]. unfold bind at 1. cbn.
    rewrite bool_decide_false by (by destruct (Stack (r_Cursor r))).
    rewrite IH by (simpl in Hfuel; lia). cbn.
    destruct lp. cbn. by rewrite <- !app_assoc.
Qed.

(** C2: against a service that answers with the chunks [rs ++ [last]],
    where every cursor of [rs] has a non-empty stack and the cursor of
    [last] an empty one, [GetBlock] with enough fuel sends exactly
    [length rs + 1] requests "loadPageChunk" for the block, each with
    limit 50, the first with the empty cursor and each later one with the
    cursor of the response before it; it stops at [last], leaving the rest
    of the script unread, and hands the record maps of the responses, in
    order, to [parseBlockFromRecordMaps]. *)
Theorem GetBlock_pagination (blockID : string)
    (rs : list loadPageChunkResponse) (last : loadPageChunkResponse)
    (extra : list reply) (fuel : nat) :
  Forall (λ r, Stack (r_Cursor r) ≠ []) rs →
  Stack (r_Cursor last) = [] →
  length rs < fuel →
  let w0 := {| script := map Chunk (rs ++ [last]) ++ extra; log := [] |} in
  let w1 := {| script := extra;
               log := map (chunk_request blockID 50 false)
                        ({| Stack := [] |} :: map r_Cursor rs) |} in
  GetBlock_loop fuel
    {| lp_PageID := blockID; lp_Limit := 50; lp_Cursor := {| Stack := [] |};
       lp_VerticalColumns := false |} [] w0
  = (Done (inr (map r_RecordMap (rs ++ [last]))), w1) ∧
  GetBlock fuel blockID w0
  = parseBlockFromRecordMaps blockID (map r_RecordMap (rs ++ [last])) w1.
Proof.
  intros Hrs Hlast Hfuel w0 w1.
  pose proof (GetBlock_loop_script rs last extra fuel
    {| lp_PageID := blockID; lp_Limit := 50; lp_Cursor := {| Stack := [] |};
       lp_VerticalColumns := false |} [] [] Hrs Hlast Hfuel) as Hloop.
  split; [exact Hloop|].
  unfold GetBlock, bind. fold w0. unfold w0. by rewrite Hloop.
Qed.

Lemma GetBlock_pagination_witness :
  Forall (λ r, Stack (r_Cursor r) ≠ []) [page1; page2] ∧
  Stack (r_Cursor page3) = [] ∧
  length [page1; page2] < 3 ∧
  GetBlock_loop 3
    {| lp_PageID := "root"; lp_Limit := 50; lp_Cursor := {| Stack := [] |};
       lp_VerticalColumns := false |} []
    {| script := [Chunk page1; Chunk page2; Chunk page3]; log := [] |}
  = (Done (inr [r_RecordMap page1; r_RecordMap page2; r_RecordMap page3]),
     {| script := [];
        log := [chunk_request "root" 50 false {| Stack := [] |};
                chunk_request "root" 50 false {| Stack := [["root-1"]] |};
                chunk_request "root" 50 false {| Stack := [["root-2"]] |}] |})
  ∧
  GetBlock 3 "root"
    {| script := [Chunk page1; Chunk page2; Chunk page3]; log := [] |}
  = parseBlockFromRecordMaps "root"
      [r_RecordMap page1; r_RecordMap page2; r_RecordMap page3]
      {| script := [];
         log := [chunk_request "root" 50 false {| Stack := [] |};
                 chunk_request "root" 50 false {| Stack := [["root-1"]] |};
                 chunk_request "root" 50 false {| Stack := [["root-2"]] |}] |}.
Proof.
  assert (Hrs : Forall (λ r, Stack (r_Cursor r) ≠ []) [page1; page2])
    by (repeat constructor; discriminate).
  split; [exact Hrs|]. split; [reflexivity|]. split; [simpl; lia|].
  apply (GetBlock_pagination "root" [page1; page2] page3 [] 3 Hrs eq_refl).
  simpl; lia.
Defined.

(** The whole fetch of the fixture: three requests, then the root block. *)
Example GetBlock_three_pages :
  GetBlock 3 "root"
    {| script := [Chunk page1; Chunk page2; Chunk page3]; log := [] |}
  = (Done (Some 1%positive, None),
     {| script := [];
        log := [chunk_request "root" 50 false {| Stack := [] |};
                chunk_request "root" 50 false {| Stack := [["root-1"]] |};
                chunk_request "root" 50 false {| Stack := [["root-2"]] |}] |}).
Proof. vm_compute. reflexivity. Qed.

(** Against the scripted service [UpdateBlock] adds one entry to the log. *)
Example UpdateBlock_logged :
  UpdateBlock "b1" "properties.title" "hello"
    {| script := [Status 200]; log := [] |}
  = (Done None,
     {| script := [];
        log := [(SubmitTransaction
                   {| Operations :=
                        [Some {| op_ID := "b1"; op_Table := "block";
                                 op_Path := ["properties"; "title"];
                                 op_Command := "set";
                                 op_Args := [["hello"]] |}] |},
                 "submitTransaction")] |}).
Proof. reflexivity. Qed.

Lemma mergeRecordMaps_assoc_comm_witness :
  disjoint_keys (r_RecordMap page1) (r_RecordMap page2) ∧
  disjoint_keys (r_RecordMap page1) (r_RecordMap page3) ∧
  disjoint_keys (r_RecordMap page2) (r_RecordMap page3) ∧
  mergeRecordMaps [r_RecordMap page1; r_RecordMap page2; r_RecordMap page3]
  = Done (merged_pages, None) ∧
  ∃ a ab bc abc,
    mergeRecordMaps [r_RecordMap page1] = Done (a, None) ∧
    mergeRecordMaps [r_RecordMap page1; r_RecordMap page2]
    = Done (ab, None) ∧
    mergeRecordMaps [r_RecordMap page2; r_RecordMap page3]
    = Done (bc, None) ∧
    mergeRecordMaps [r_RecordMap page1; r_RecordMap page2; r_RecordMap page3]
    = Done (abc, None) ∧
    mergeRecordMaps [ab; r_RecordMap page3] = Done (abc, None) ∧
    mergeRecordMaps [a; bc] = Done (abc, None) ∧
    mergeRecordMaps [a; r_RecordMap page2; r_RecordMap page3]
    = Done (abc, None) ∧
    mergeRecordMaps [r_RecordMap page1; bc] = Done (abc, None) ∧
    mergeRecordMaps [r_RecordMap page1; r_RecordMap page3; r_RecordMap page2]
    = Done (abc, None) ∧
    mergeRecordMaps [r_RecordMap page2; r_RecordMap page1; r_RecordMap page3]
    = Done (abc, None) ∧
    mergeRecordMaps [r_RecordMap page2; r_RecordMap page3; r_RecordMap page1]
    = Done (abc, None) ∧
    mergeRecordMaps [r_RecordMap page3; r_RecordMap page1; r_RecordMap page2]
    = Done (abc, None) ∧
    mergeRecordMaps [r_RecordMap page3; r_RecordMap page2; r_RecordMap page1]
    = Done (abc, None).
Proof.
  assert (Hdisjoint : ∀ i j l l' (stack stack' : list (list string)),
            i ≠ j →
            disjoint_keys (r_RecordMap (page i l stack))
                          (r_RecordMap (page j l' stack'))).
  { intros i j l l' stack stack' Hij. repeat split; simpl;
      try apply map_disjoint_empty_l.
    by apply map_disjoint_singleton_l_2, lookup_singleton_ne. }
  assert (H12 := Hdisjoint "root" "child-a" 1%positive 2%positive
                   [["root-1"]] [["root-2"]] ltac:(discriminate)).
  assert (H13 := Hdisjoint "root" "child-b" 1%positive 3%positive
                   [["root-1"]] [] ltac:(discriminate)).
  assert (H23 := Hdisjoint "child-a" "child-b" 2%positive 3%positive
                   [["root-2"]] [] ltac:(discriminate)).
  split; [exact H12|]. split; [exact H13|]. split; [exact H23|].
  split; [vm_compute; reflexivity|].
  exact (mergeRecordMaps_assoc_comm (r_RecordMap page1) (r_RecordMap page2)
           (r_RecordMap page3) H12 H13 H23).
Defined.

Lemma GetPage_never_nil_witness :
  let w := {| script := [Status 500]; log := [] |} in
  let w' := {| script := [];
               log := [chunk_request "page" 50 false {| Stack := [] |}] |} in
  let err := Some (External "unexpected status") in
  GetBlock 1 "page" w = (Done (None, err), w') ∧
  GetPage 1 "page" w = (Done (Some {| Block := None |}, err), w') ∧
  (err ≠ None → @None loc = None).
Proof.
  intros w w' err.
  assert (Hget : GetBlock 1 "page" w = (Done (None, err), w'))
    by reflexivity.
  split; [exact Hget|].
  exact (GetPage_never_nil 1 "page" w w' None err Hget).
Defined.

End PaginationProperties.

(** ** More on the inline rich-text parser *)

Section ParserExtras.
Import notiontypes.
Context {Date : Type} (decodeDate : gmap string value → error + Date).

Local Ltac code_cases :=
  repeat (match goal with
          | |- context [String.eqb ?s ?c] =>
            destruct (String.eqb_spec s c); [try subst s|]
          end; simpl);
  try discriminate.

(** An attribute entry that is applied without error is of the prescribed
    shape. *)
Lemma parseAttribute_done_ok (b b' : InlineBlock Date) (a : list value) :
  parseAttribute decodeDate b a = Done (b', None) →
  attribute_entry_ok decodeDate (VArray a) = true.
Proof.
  destruct a as [|[| | |code| |] [|a1 [|a2 rest]]]; simpl; try congruence.
  - unfold is_flag_code. code_cases; congruence.
  - destruct a1; unfold decodes; try destruct (decodeDate m);
      code_cases; congruence.
Qed.

Lemma parseAttributes_done_ok (a : list value) (b b' : InlineBlock Date) :
  parseAttributes decodeDate b a = Done (b', None) →
  forallb (attribute_entry_ok decodeDate) a = true.
Proof.
  revert b. induction a as [|e a IH]; intros b; [done|].
  cbn [parseAttributes forallb]. destruct e; try congruence.
  destruct (parseAttribute decodeDate b a0) as [[b1 [err|]]| |] eqn:He;
    try congruence.
  intros Hrest. rewrite (parseAttribute_done_ok _ _ _ He). simpl. eauto.
Qed.

Lemma parseInlineBlock_done_ok (a : list value) r :
  parseInlineBlock decodeDate a = Done (r, None) →
  span_entry_ok decodeDate (VArray a) = true ∧ is_Some r.
Proof.
  destruct a as [|[| | |text| |] [|a1 [|a2 rest]]]; simpl; try congruence.
  - intros [= <-]. eauto.
  - destruct a1; try congruence.
    destruct (parseAttributes decodeDate (newInlineBlock text) a)
      as [[b1 [err|]]| |] eqn:Ha; try congruence.
    intros [= <-]. split; [|eauto]. by eapply parseAttributes_done_ok.
Qed.

Lemma parseInlineBlocks_loop_done_ok (a : list value)
    (res spans : list (option (InlineBlock Date))) :
  parseInlineBlocks_loop decodeDate res a = Done (spans, None) →
  forallb (span_entry_ok decodeDate) a = true.
Proof.
  revert res. induction a as [|e a IH]; intros res; [done|].
  cbn [parseInlineBlocks_loop forallb]. destruct e; try congruence.
  destruct (parseInlineBlock decodeDate a0) as [[r [err|]]| |] eqn:He;
    try congruence.
  intros Hrest. destruct (parseInlineBlock_done_ok _ _ He) as [-> _].
  simpl. eauto.
Qed.

(** X1: [parseInlineBlocks] returns a nil error exactly on the inputs of the
    prescribed shape: a non-empty array of span entries [[text]] or
    [[text, attrs]], the attribute entries being a flag code alone, "a" or
    "u" with a string, or "d" with an object that decodes. *)
Theorem parseInlineBlocks_succeeds_iff (raw : value) :
  (∃ spans, parseInlineBlocks decodeDate raw = Done (spans, None)) ↔
  rich_text_ok decodeDate raw = true.
Proof.
  split.
  - intros [spans Hrun]. destruct raw as [| | | |[|e a]|]; try discriminate.
    apply (parseInlineBlocks_loop_done_ok _ _ _ Hrun).
  - intros Hok.
    destruct (parseInlineBlocks_well_formed decodeDate raw Hok)
      as (a & spans & _ & Hrun & _). eauto.
Qed.

Lemma parseInlineBlocks_loop_error_nil (a : list value)
    (res spans : list (option (InlineBlock Date))) err :
  parseInlineBlocks_loop decodeDate res a = Done (spans, Some err) →
  spans = [].
Proof.
  revert res. induction a as [|e a IH]; intros res; [discriminate|].
  cbn [parseInlineBlocks_loop]. destruct e; try congruence.
  destruct (parseInlineBlock decodeDate a0) as [[r [err'|]]| |];
    try congruence. apply IH.
Qed.

(** X2: whenever [parseInlineBlocks] returns an error, the span list it
    returns with it is nil: the spans parsed before the malformed entry are
    not handed out. *)
Theorem parseInlineBlocks_error_no_spans (raw : value)
    (spans : list (option (InlineBlock Date))) (err : error) :
  parseInlineBlocks decodeDate raw = Done (spans, Some err) → spans = [].
Proof.
  destruct raw as [| | | |[|e a]|]; try (simpl; congruence).
  exact (parseInlineBlocks_loop_error_nil (e :: a) [] spans err).
Qed.

(** What one attribute entry does to the block. *)
Lemma parseAttribute_fields (b b' : InlineBlock Date) (a : list value) :
  parseAttribute decodeDate b a = Done (b', None) →
  Text b' = Text b ∧
  AttrFlags b' = Z.lor (AttrFlags b) (entry_flag a) ∧
  ((∀ v, a ≠ [VString "a"; VString v]) → Link b' = Link b) ∧
  ((∀ v, a ≠ [VString "u"; VString v]) → UserID b' = UserID b) ∧
  ((∀ v, a ≠ [VString "d"; v]) → Date_ b' = Date_ b) ∧
  (∀ v, a = [VString "a"; VString v] → Link b' = v) ∧
  (∀ v, a = [VString "u"; VString v] → UserID b' = v).
Proof.
  destruct a as [|[| | |code| |] [|a1 [|a2 rest]]]; simpl; try congruence.
  - code_cases; intros [= <-]; simpl; repeat split; congruence.
  - destruct a1 as [| | |s| |m]; [| | | | |destruct (decodeDate m)];
      code_cases; intros [= <-]; simpl; rewrite ?Z.lor_0_r;
      repeat split; try congruence; intros Hv; by destruct (Hv _ eq_refl).
Qed.

Lemma parseAttributes_app (a1 a2 : list value) (b : InlineBlock Date) :
  parseAttributes decodeDate b (a1 ++ a2)
  = match parseAttributes decodeDate b a1 with
    | Done (b1, None) => parseAttributes decodeDate b1 a2
    | other => other
    end.
Proof.
  revert b. induction a1 as [|e a1 IH]; intros b; [done|].
  cbn [app parseAttributes]. destruct e; try done.
  by destruct (parseAttribute decodeDate b a) as [[b1 [err|]]| |].
Qed.

Lemma parseAttributes_fields_kept (a : list value) (b b' : InlineBlock Date) :
  parseAttributes decodeDate b a = Done (b', None) →
  Text b' = Text b ∧
  ((∀ v, VArray [VString "a"; VString v] ∉ a) → Link b' = Link b) ∧
  ((∀ v, VArray [VString "u"; VString v] ∉ a) → UserID b' = UserID b) ∧
  ((∀ v, VArray [VString "d"; v] ∉ a) → Date_ b' = Date_ b).
Proof.
  revert b. induction a as [|e a IH]; intros b.
  { intros [= <-]. done. }
  cbn [parseAttributes]. destruct e; try congruence.
  destruct (parseAttribute decodeDate b a0) as [[b1 [err|]]| |] eqn:He;
    try congruence.
  intros Hrest.
  destruct (parseAttribute_fields _ _ _ He) as (Ht & _ & Hl & Hu & Hd & _).
  destruct (IH _ Hrest) as (Ht' & Hl' & Hu' & Hd').
  split; [congruence|].
  repeat split; intros Hno.
  - rewrite Hl', Hl; [done| |].
    + intros v ->. apply (Hno v). left.
    + intros v Hv. apply (Hno v). by right.
  - rewrite Hu', Hu; [done| |].
    + intros v ->. apply (Hno v). left.
    + intros v Hv. apply (Hno v). by right.
  - rewrite Hd', Hd; [done| |].
    + intros v ->. apply (Hno v). left.
    + intros v Hv. apply (Hno v). by right.
Qed.

(** X3: attributes never touch the text of a span, and a field of the
    exclusive slot is changed only by entries of its own code: without an
    "a" entry the link is as before, without a "u" entry the user id, and
    without a "d" entry the date. *)
Theorem parseAttributes_untouched (a : list value) (b b' : InlineBlock Date) :
  parseAttributes decodeDate b a = Done (b', None) →
  Text b' = Text b ∧
  ((∀ v, VArray [VString "a"; VString v] ∉ a) → Link b' = Link b) ∧
  ((∀ v, VArray [VString "u"; VString v] ∉ a) → UserID b' = UserID b) ∧
  ((∀ v, VArray [VString "d"; v] ∉ a) → Date_ b' = Date_ b).
Proof. apply parseAttributes_fields_kept. Qed.

(** X4: the last link entry wins, and so does the last user entry: after a
    successful pass over attributes [pre ++ [code, v] :: post], where [post]
    has no entry of that code, the field holds [v]. *)
Theorem parseAttributes_last_wins (pre post : list value) (v : string)
    (b b' : InlineBlock Date) :
  (parseAttributes decodeDate b
     (pre ++ VArray [VString "a"; VString v] :: post) = Done (b', None) →
   (∀ v', VArray [VString "a"; VString v'] ∉ post) →
   Link b' = v) ∧
  (parseAttributes decodeDate b
     (pre ++ VArray [VString "u"; VString v] :: post) = Done (b', None) →
   (∀ v', VArray [VString "u"; VString v'] ∉ post) →
   UserID b' = v).
Proof.
  split; rewrite parseAttributes_app;
    (destruct (parseAttributes decodeDate b pre) as [[b1 [err|]]| |];
     try congruence);
    cbn [parseAttributes parseAttribute]; simpl; intros Hpost Hno.
  - destruct (parseAttributes_fields_kept _ _ _ Hpost) as (_ & Hl & _).
    by rewrite (Hl Hno).
  - destruct (parseAttributes_fields_kept _ _ _ Hpost) as (_ & _ & Hu & _).
    by rewrite (Hu Hno).
Qed.

(** The bit of a flag is in [entry_flag] exactly for the entry of its
    code. *)
Lemma entry_flag_bit (a : list value) :
  (Z.testbit (entry_flag a) 0 = true ↔ a = [VString "b"]) ∧
  (Z.testbit (entry_flag a) 1 = true ↔ a = [VString "c"]) ∧
  (Z.testbit (entry_flag a) 2 = true ↔ a = [VString "i"]) ∧
  (Z.testbit (entry_flag a) 3 = true ↔ a = [VString "s"]).
Proof.
  destruct a as [|[| | |code| |] [|a1 rest]]; simpl;
    try (repeat split; intros; discriminate).
  code_cases; cbn; repeat split; intros; congruence.
Qed.

Lemma parseAttributes_flags (a : list value) (b b' : InlineBlock Date) :
  parseAttributes decodeDate b a = Done (b', None) →
  ∀ (n : Z) (code : string),
    (∀ e, Z.testbit (entry_flag e) n = true ↔ e = [VString code]) →
    (Z.testbit (AttrFlags b') n = true ↔
     Z.testbit (AttrFlags b) n = true ∨ VArray [VString code] ∈ a).
Proof.
  intros Hrun n code Hbit. revert b Hrun.
  induction a as [|e a IH]; intros b.
  { intros [= <-]. split; [auto|]. intros [?|Hin]; [done|].
    by apply elem_of_nil in Hin. }
  cbn [parseAttributes]. destruct e; try congruence.
  destruct (parseAttribute decodeDate b a0) as [[b1 [err|]]| |] eqn:He;
    try congruence.
  intros Hrest. rewrite (IH _ Hrest).
  destruct (parseAttribute_fields _ _ _ He) as (_ & -> & _).
  rewrite Z.lor_spec, orb_true_iff, Hbit, elem_of_cons. split.
  - intros [[?| ->]|?]; auto.
  - intros [?|[Heq|?]]; auto. injection Heq as ->. auto.
Qed.

(** X5: after a successful pass over the attributes, a style flag is set
    exactly when it was set before or its entry occurs in the list: bit 0
    for ["b"], bit 1 for ["c"], bit 2 for ["i"], bit 3 for ["s"].  So
    neither the order of the flag entries nor a repeated entry matters. *)
Theorem parseAttributes_flag_bits (a : list value) (b b' : InlineBlock Date) :
  parseAttributes decodeDate b a = Done (b', None) →
  (Z.testbit (AttrFlags b') 0 = true ↔
   Z.testbit (AttrFlags b) 0 = true ∨ VArray [VString "b"] ∈ a) ∧
  (Z.testbit (AttrFlags b') 1 = true ↔
   Z.testbit (AttrFlags b) 1 = true ∨ VArray [VString "c"] ∈ a) ∧
  (Z.testbit (AttrFlags b') 2 = true ↔
   Z.testbit (AttrFlags b) 2 = true ∨ VArray [VString "i"] ∈ a) ∧
  (Z.testbit (AttrFlags b') 3 = true ↔
   Z.testbit (AttrFlags b) 3 = true ∨ VArray [VString "s"] ∈ a).
Proof.
  intros Hrun.
  repeat split; apply (parseAttributes_flags _ _ _ Hrun); intros e;
    apply (entry_flag_bit e).
Qed.

(** X6: a span whose attributes hold a flag entry is never plain. *)
Theorem parseAttributes_flag_not_plain (a : list value)
    (b b' : InlineBlock Date) (code : string) :
  parseAttributes decodeDate b a = Done (b', None) →
  VArray [VString code] ∈ a →
  IsPlain b' = false.
Proof.
  intros Hrun Hin.
  assert (Hok := parseAttributes_done_ok _ _ _ Hrun).
  rewrite forallb_forall in Hok.
  assert (Hcode := Hok _ (proj1 (list_elem_of_In _ _) Hin)).
  pose proof (λ n c Hbit, parseAttributes_flags _ _ _ Hrun n c Hbit)
    as Hbits.
  assert (Hb := Hbits 0%Z "b" (λ e, proj1 (entry_flag_bit e))).
  assert (Hc := Hbits 1%Z "c" (λ e, proj1 (proj2 (entry_flag_bit e)))).
  assert (Hi := Hbits 2%Z "i" (λ e, proj1 (proj2 (proj2 (entry_flag_bit e))))).
  assert (Hs := Hbits 3%Z "s" (λ e, proj2 (proj2 (proj2 (entry_flag_bit e))))).
  assert (∃ n, Z.testbit (AttrFlags b') n = true) as [n Hn].
  { revert Hcode. simpl. unfold is_flag_code. code_cases; intros _;
      first [ exists 0%Z; apply Hb; by right
            | exists 1%Z; apply Hc; by right
            | exists 2%Z; apply Hi; by right
            | exists 3%Z; apply Hs; by right ]. }
  unfold IsPlain. rewrite bool_decide_false; [done|].
  intros Hzero. by rewrite Hzero, Z.testbit_0_l in Hn.
Qed.

Lemma parseInlineBlock_text (a : list value) r :
  parseInlineBlock decodeDate a = Done (r, None) →
  Text <$> r = entry_text (VArray a) ∧ is_Some r.
Proof.
  destruct a as [|[| | |text| |] [|a1 [|a2 rest]]]; simpl; try congruence.
  - intros [= <-]. eauto.
  - destruct a1; try congruence.
    destruct (parseAttributes decodeDate (newInlineBlock text) a)
      as [[b1 [err|]]| |] eqn:Ha; try congruence.
    intros [= <-]. simpl.
    destruct (parseAttributes_fields_kept _ _ _ Ha) as [-> _]. eauto.
Qed.

Lemma parseInlineBlocks_loop_texts (a : list value)
    (res spans : list (option (InlineBlock Date))) :
  parseInlineBlocks_loop decodeDate res a = Done (spans, None) →
  ∃ new, spans = res ++ new ∧
         fmap Text <$> new = entry_text <$> a ∧
         Forall is_Some new.
Proof.
  revert res. induction a as [|e a IH]; intros res.
  { intros [= <-]. exists []. by rewrite app_nil_r. }
  cbn [parseInlineBlocks_loop]. destruct e; try congruence.
  destruct (parseInlineBlock decodeDate a0) as [[r [err|]]| |] eqn:He;
    try congruence.
  intros Hrest. destruct (IH _ Hrest) as (new & -> & Htexts & Hsome).
  destruct (parseInlineBlock_text _ _ He) as [Ht Hr].
  exists (r :: new). rewrite <- app_assoc. split; [done|].
  split; [|by constructor]. cbn [fmap list_fmap]. by rewrite Ht, <- Htexts.
Qed.

(** X7: a successful parse returns one span per span entry, none of them a
    nil pointer, and the text of each span is the string its entry leads
    with, in the order of the input. *)
Theorem parseInlineBlocks_texts (a : list value)
    (spans : list (option (InlineBlock Date))) :
  parseInlineBlocks decodeDate (VArray a) = Done (spans, None) →
  length spans = length a ∧
  Forall is_Some spans ∧
  fmap Text <$> spans = entry_text <$> a.
Proof.
  intros Hrun.
  assert (parseInlineBlocks_loop decodeDate [] a = Done (spans, None))
    as Hloop by (by destruct a).
  destruct (parseInlineBlocks_loop_texts _ _ _ Hloop)
    as (new & -> & Htexts & Hsome).
  split; [|done]. simpl.
  by rewrite <- (length_fmap (fmap Text)), Htexts, length_fmap.
Qed.

End ParserExtras.

(** ** More on the record map merger *)

Section MergerExtras.
Import notion.
Context `{Externals}.

Lemma overlay_app {V} (cat : RecordMap → gomap V) rms rms' acc :
  overlay cat (rms ++ rms') acc = overlay cat rms' (overlay cat rms acc).
Proof. apply foldl_app. Qed.

Lemma overlay_cons {V} (cat : RecordMap → gomap V) rm rms acc :
  overlay cat (rm :: rms) acc = overlay cat rms (entries (cat rm) ∪ acc).
Proof. done. Qed.

Lemma overlay_nil {V} (cat : RecordMap → gomap V) acc :
  overlay cat [] acc = acc.
Proof. done. Qed.

(** What an accumulator adds to the overlay of a sequence. *)
Lemma overlay_lookup {V} (cat : RecordMap → gomap V) rms acc k :
  overlay cat rms acc !! k
  = match overlay cat rms ∅ !! k with
    | Some v => Some v
    | None => acc !! k
    end.
Proof.
  revert acc. induction rms as [|rm rms IH]; intros acc; simpl.
  { by rewrite lookup_empty. }
  rewrite IH, (IH (_ ∪ ∅)), !lookup_union, lookup_empty.
  destruct (overlay cat rms ∅ !! k); [done|].
  by destruct (entries (cat rm) !! k), (acc !! k).
Qed.

Lemma overlay_union {V} (cat : RecordMap → gomap V) rms acc :
  overlay cat rms acc = overlay cat rms ∅ ∪ acc.
Proof.
  apply map_eq. intros k. rewrite overlay_lookup, lookup_union.
  by destruct (overlay cat rms ∅ !! k), (acc !! k).
Qed.

(** X8: merging composes: for any two sequences, merging their
    concatenation in one pass gives what merging the two merged parts
    gives, and merging a merged map alone gives it back.  No condition on
    the keys is needed. *)
Theorem mergeRecordMaps_app (rms1 rms2 : list RecordMap) :
  ∃ m1 m2 m,
    mergeRecordMaps rms1 = Done (m1, None) ∧
    mergeRecordMaps rms2 = Done (m2, None) ∧
    mergeRecordMaps (rms1 ++ rms2) = Done (m, None) ∧
    mergeRecordMaps [m1; m2] = Done (m, None) ∧
    mergeRecordMaps (m1 :: rms2) = Done (m, None) ∧
    mergeRecordMaps [m] = Done (m, None).
Proof.
  do 3 eexists. do 3 (split; [apply mergeRecordMaps_overlay|]).
  repeat split; rewrite mergeRecordMaps_overlay; apply merged_ext;
    rewrite ?overlay_app, ?overlay_cons, ?overlay_nil; simpl;
    rewrite ?(right_id_L ∅ (∪));
    by rewrite ?(overlay_union _ rms2 (overlay _ rms1 ∅)).
Qed.

(** X9: records that are sent again change nothing: merging a sequence
    followed by the same sequence once more, or followed by its own merged
    map, gives what merging the sequence gives. *)
Theorem mergeRecordMaps_resend (rms : list RecordMap) :
  ∃ m, mergeRecordMaps rms = Done (m, None) ∧
       mergeRecordMaps (rms ++ rms) = Done (m, None) ∧
       mergeRecordMaps (rms ++ [m]) = Done (m, None).
Proof.
  eexists. split; [apply mergeRecordMaps_overlay|].
  split; rewrite mergeRecordMaps_overlay; apply merged_ext;
    rewrite overlay_app, ?overlay_cons, ?overlay_nil; simpl;
    rewrite ?(overlay_union _ rms (overlay _ rms ∅));
    by rewrite (idemp_L (∪)).
Qed.

(** X10: a response without records, be its categories nil or empty, can
    stand anywhere in the sequence without changing the merged map. *)
Theorem mergeRecordMaps_skip_empty (rms1 rms2 : list RecordMap)
    (e : RecordMap) :
  no_entries e →
  mergeRecordMaps (rms1 ++ e :: rms2) = mergeRecordMaps (rms1 ++ rms2).
Proof.
  intros (Hb & Hs & Hu & Hc & Hv).
  rewrite !mergeRecordMaps_overlay. apply merged_ext;
    rewrite !overlay_app, overlay_cons;
    rewrite ?Hb, ?Hs, ?Hu, ?Hc, ?Hv; by rewrite (left_id_L ∅ (∪)).
Qed.

End MergerExtras.

(** ** More on block resolution *)

Section ResolverExtras.
Import notion.
Context `{Runtime}.

(** The loop that collects the blocks for [ResolveBlock]: it panics when a
    record is a nil pointer, and otherwise maps every key to the [Value] of
    its record. *)
Lemma block_values_cases (m : gomap (option BlockWithRole)) :
  (block_values m = Done ((λ v, v ≫= Value) <$> entries m) ∧
   ∀ k, index m k ≠ Some None) ∨
  (block_values m = Panic NilDereference ∧ ∃ k, index m k = Some None).
Proof.
  unfold block_values, index.
  apply (map_fold_weak_ind (λ r (es : gmap string (option BlockWithRole)),
    (r = Done ((λ v, v ≫= Value) <$> es) ∧ ∀ k, es !! k ≠ Some None) ∨
    (r = Panic NilDereference ∧ ∃ k, es !! k = Some None))).
  - left. split; [by rewrite fmap_empty|]. intros k. by rewrite lookup_empty.
  - intros k v es r Hk [[-> Hall]|[-> [k' Hk']]].
    + destruct v as [bb|]; simpl.
      * left. split; [by rewrite fmap_insert|].
        intros k'. destruct (decide (k = k')) as [->|Hne].
        -- by rewrite lookup_insert_eq.
        -- rewrite lookup_insert_ne by done. apply Hall.
      * right. split; [done|]. exists k. by rewrite lookup_insert_eq.
    + right. split; [done|]. exists k'.
      rewrite lookup_insert_ne; [done|]. congruence.
Qed.

(** X11: a nil record pointer anywhere in the merged blocks makes
    [parseBlockFromRecordMaps] panic on a nil dereference as soon as the
    root id is found; [ResolveBlock] is not called. *)
Theorem parseBlockFromRecordMaps_nil_record (blockID k : string)
    (responses : list RecordMap) (rm : RecordMap) (w : World) :
  mergeRecordMaps responses = Done (rm, None) →
  is_Some (index (Blocks rm) blockID) →
  index (Blocks rm) k = Some None →
  parseBlockFromRecordMaps blockID responses w = (Panic NilDereference, w).
Proof.
  intros Hrm [r Hroot] Hnil.
  destruct (parseBlockFromRecordMaps_unfold blockID responses w)
    as (rm' & Hrm' & ->).
  rewrite Hrm in Hrm'. injection Hrm' as <-. rewrite Hroot.
  destruct r as [bb|]; [|done].
  destruct (block_values_cases (Blocks rm)) as [[_ Hall]|[-> _]]; [|done].
  by destruct (Hall k).
Qed.

(** X12: when no merged record is a nil pointer and the root id is
    present, [ResolveBlock] is called on the [Value] of the root record and
    on a map that sends every merged block id to the [Value] of its record;
    its error, if any, comes back wrapped as "resolveBlock failed" with a
    nil block, and without an error the root [Value] is returned. *)
Theorem parseBlockFromRecordMaps_resolves (blockID : string)
    (responses : list RecordMap) (rm : RecordMap) (bb : BlockWithRole)
    (w : World) :
  mergeRecordMaps responses = Done (rm, None) →
  index (Blocks rm) blockID = Some (Some bb) →
  (∀ k, index (Blocks rm) k ≠ Some None) →
  ∃ blocks,
    (∀ k, blocks !! k = (λ v, v ≫= Value) <$> index (Blocks rm) k) ∧
    parseBlockFromRecordMaps blockID responses w
    = match ResolveBlock (Value bb) blocks w with
      | (Done (Some err), w') =>
        (Done (None, Some (Wrap err "resolveBlock failed")), w')
      | (Done None, w') => (Done (Value bb, None), w')
      | (Panic p, w') => (Panic p, w')
      | (OutOfFuel, w') => (OutOfFuel, w')
      end.
Proof.
  intros Hrm Hroot Hall.
  destruct (parseBlockFromRecordMaps_unfold blockID responses w)
    as (rm' & Hrm' & ->).
  rewrite Hrm in Hrm'. injection Hrm' as <-. rewrite Hroot.
  destruct (block_values_cases (Blocks rm)) as [[-> _]|[_ [k Hk]]].
  - eexists. split; [|done]. intros k. unfold index. by rewrite lookup_fmap.
  - by destruct (Hall k).
Qed.

(** X13: when several responses hold the root id, the record of the last
    one in fetch order is the one resolved and returned. *)
Theorem parseBlockFromRecordMaps_last_page (blockID : string)
    (responses : list RecordMap) (rm page : RecordMap) (i : nat)
    (bb : BlockWithRole) (blocks : gmap string (option loc))
    (w w' : World) :
  mergeRecordMaps responses = Done (rm, None) →
  responses !! i = Some page →
  index (Blocks page) blockID = Some (Some bb) →
  (∀ j page', i < j → responses !! j = Some page' →
              index (Blocks page') blockID = None) →
  block_values (Blocks rm) = Done blocks →
  ResolveBlock (Value bb) blocks w = (Done None, w') →
  parseBlockFromRecordMaps blockID responses w = (Done (Value bb, None), w').
Proof.
  intros Hrm Hi Hroot Hlater Hblocks Hresolve.
  destruct (parseBlockFromRecordMaps_unfold blockID responses w)
    as (rm' & Hrm' & ->).
  rewrite Hrm in Hrm'. injection Hrm' as <-.
  rewrite mergeRecordMaps_overlay in Hrm. injection Hrm as Hrm.
  assert (index (Blocks rm) blockID = Some (Some bb)) as ->.
  { rewrite <- Hrm. unfold index at 1. simpl.
    by eapply (overlay_last_write Blocks). }
  by rewrite Hblocks, Hresolve.
Qed.

End ResolverExtras.

(** ** Block resolution as the specification describes it *)

Section ResolverProperties.
Import notion stub resolver.
Context {Date : Type} (decodeDate : gmap string value → error + Date).
Variable rich_text_kind : string → bool.
Variable blocks : gmap string (option positive).

Implicit Types (σ : state Date) (c : cell Date) (l p : positive).

Lemma resolve_inline_fields c c' :
  resolve_inline decodeDate rich_text_kind c = Done (inr c') →
  fields c' = fields c ∧ Content c' = Content c.
Proof.
  unfold resolve_inline.
  destruct (rich_text_kind _); [|by intros [= <-]].
  destruct (Properties c !! "title") as [raw|]; [|by intros [= <-]].
  destruct (notiontypes.parseInlineBlocks decodeDate raw)
    as [[spans [err|]]| |]; try discriminate.
  by intros [= <-].
Qed.

Lemma extends_refl σ : extends σ σ.
Proof. by split. Qed.

Lemma extends_trans σ1 σ2 σ3 : extends σ1 σ2 → extends σ2 σ3 → extends σ1 σ3.
Proof.
  intros [Hm Hf] [Hm' Hf']. split; [by transitivity σ2.2|].
  intros l. by rewrite Hf', Hf.
Qed.

(** Recording an id and rewriting an object with the same fields extend the
    state. *)
Lemma extends_record (h : gmap positive (cell Date)) (memo : gset string)
    (id : string) :
  extends (h, memo) (h, {[id]} ∪ memo).
Proof. split; [apply union_subseteq_r|done]. Qed.

Lemma extends_rewrite (h : gmap positive (cell Date)) (memo : gset string)
    l c c' :
  h !! l = Some c → fields c' = fields c →
  extends (h, memo) (<[l:=c']> h, memo).
Proof.
  intros Hc Hfields. split; [done|]. intros l0. simpl.
  destruct (decide (l = l0)) as [<-|Hne].
  - rewrite lookup_insert_eq, Hc. simpl. congruence.
  - by rewrite lookup_insert_ne.
Qed.

(** A resolved block stays resolved when ids are added and other objects
    are rewritten. *)
Lemma resolved_more_ids (h : gmap positive (cell Date))
    (memo memo' : gset string) p :
  memo ⊆ memo' → resolved blocks (h, memo) p → resolved blocks (h, memo') p.
Proof.
  intros Hsub (c & Hc & Hlinked & Hkids). exists c. do 2 (split; [done|]).
  eapply Forall_impl; [exact Hkids|]. intros id. apply Hsub.
Qed.

Lemma resolved_rewrite (h : gmap positive (cell Date)) (memo : gset string)
    l c' p :
  resolved blocks (<[l:=c']> h, memo) l →
  resolved blocks (h, memo) p → resolved blocks (<[l:=c']> h, memo) p.
Proof.
  intros Hl (c & Hc & Hlinked & Hkids).
  destruct (decide (l = p)) as [<-|Hne]; [done|].
  exists c. simpl. by rewrite lookup_insert_ne.
Qed.

Lemma memo_ok_record (h : gmap positive (cell Date)) (memo : gset string)
    (id : string) p :
  blocks !! id = Some (Some p) →
  memo_ok blocks (h, memo) → resolved blocks (h, memo) p →
  memo_ok blocks (h, {[id]} ∪ memo).
Proof.
  intros Hid Hok Hp id' Hin. simpl in Hin.
  apply elem_of_union in Hin as [Hin|Hin].
  - apply elem_of_singleton in Hin as ->. exists p. split; [done|].
    eapply resolved_more_ids; [apply union_subseteq_r|done].
  - destruct (Hok id' Hin) as (p' & Hid' & Hp'). exists p'. split; [done|].
    eapply resolved_more_ids; [apply union_subseteq_r|done].
Qed.

(** The loop over the content ids, given that the recursive call keeps the
    invariant and resolves the block it is called on. *)
Lemma resolve_children_ok
    (rec : positive → state Date → exec (option error) * state Date) :
  (∀ l σ σ', memo_ok blocks σ → rec l σ = (Done None, σ') →
             extends σ σ' ∧ memo_ok blocks σ' ∧ resolved blocks σ' l) →
  ∀ ids content σ content' σ',
    memo_ok blocks σ →
    resolve_children rec blocks ids content σ = (Done (inr content'), σ') →
    extends σ σ' ∧ memo_ok blocks σ' ∧
    ∃ new, content' = content ++ new ∧
           Forall2 (λ id p, blocks !! id = Some (Some p)) ids new ∧
           Forall (λ id, id ∈ σ'.2) ids.
Proof.
  intros Hrec ids. induction ids as [|id ids IH];
    intros content σ content' σ' Hok.
  { intros [= <- <-]. split; [apply extends_refl|]. split; [done|].
    exists []. by rewrite app_nil_r. }
  cbn [resolve_children].
  destruct (blocks !! id) as [[child|]|] eqn:Hid; try discriminate.
  destruct (decide (id ∈ σ.2)) as [Hmemo|Hfresh].
  - intros Hrest.
    destruct (IH _ _ _ _ Hok Hrest) as (Hext & Hok' & new & -> & Hnew & Hids).
    split; [done|]. split; [done|].
    exists (child :: new). rewrite <- app_assoc. split; [done|].
    split; [by constructor|]. constructor; [|done]. by apply Hext.
  - destruct (rec child σ) as [[[err|]| |] [h memo]] eqn:Hchild;
      try discriminate.
    intros Hrest.
    destruct (Hrec _ _ _ Hok Hchild) as (Hext & Hok1 & Hresolved).
    pose proof (memo_ok_record h memo id child Hid Hok1 Hresolved) as Hok2.
    destruct (IH _ _ _ _ Hok2 Hrest) as (Hext' & Hok' & new & -> & Hnew & Hids).
    split.
    { eapply extends_trans; [exact Hext|].
      eapply extends_trans; [apply extends_record|exact Hext']. }
    split; [done|].
    exists (child :: new). rewrite <- app_assoc. split; [done|].
    split; [by constructor|]. constructor; [|done].
    apply Hext'. simpl. by apply elem_of_union_l, elem_of_singleton.
Qed.

(** A successful resolution keeps the invariant and resolves the block. *)
Lemma resolve_ok (n : nat) :
  ∀ l σ σ', memo_ok blocks σ →
            resolve decodeDate rich_text_kind n blocks l σ = (Done None, σ') →
            extends σ σ' ∧ memo_ok blocks σ' ∧ resolved blocks σ' l.
Proof.
  induction n as [|n IH]; intros l σ σ' Hok; [discriminate|].
  cbn [resolve]. destruct (σ.1 !! l) as [c|] eqn:Hc; [|discriminate].
  destruct (resolve_children _ _ _ _ _) as [[[err|content]| |] [h memo]]
    eqn:Hkids; try discriminate.
  destruct (resolve_children_ok _ IH _ _ _ _ _ Hok Hkids)
    as (Hext & Hok1 & new & -> & Hnew & Hids).
  pose proof Hext as [Hm Hf]. simpl in Hm, Hf, Hnew, Hids.
  destruct (h !! l) as [c'|] eqn:Hc'; [|discriminate].
  assert (fields c' = fields c) as Hfields.
  { pose proof (Hf l) as Hfl. rewrite Hc, Hc' in Hfl. by injection Hfl. }
  destruct (resolve_inline _ _ _) as [[err|c'']| |] eqn:Hinline;
    try discriminate.
  destruct (resolve_inline_fields _ _ Hinline) as [Hfields'' Hcontent''].
  simpl in Hfields'', Hcontent''.
  intros [= <-].
  assert (resolved blocks (<[l:=c'']> h, memo) l) as Hl.
  { exists c''. simpl. rewrite lookup_insert_eq. split; [done|].
    unfold linked_at. by rewrite Hfields'', Hfields, Hcontent''. }
  split.
  { eapply extends_trans; [exact Hext|].
    eapply extends_rewrite; [exact Hc'|done]. }
  split; [|done].
  intros id Hid. destruct (Hok1 id Hid) as (p & Hp & Hresolved).
  exists p. split; [done|]. by apply resolved_rewrite.
Qed.

(** What the invariant says of the tree under a resolved block. *)
Lemma fully_linked_resolved σ root :
  memo_ok blocks σ → resolved blocks σ root → fully_linked σ.1 blocks root.
Proof.
  intros Hok Hroot x Hreach.
  assert (resolved blocks σ x) as (c & Hc & Hlinked & _); [|by exists c].
  induction Hreach as [|x c y _ IH Hc Hy]; [done|].
  destruct IH as (c0 & Hc0 & Hlinked & Hkids).
  rewrite Hc in Hc0. injection Hc0 as <-.
  apply list_elem_of_lookup in Hy as [i Hi].
  destruct (Forall2_lookup_r _ _ _ _ _ Hlinked Hi) as (id & Hid & Hlookup).
  rewrite Forall_forall in Hkids.
  destruct (Hok id (Hkids id (list_elem_of_lookup_2 _ _ _ Hid)))
    as (p & Hp & Hresolved).
  congruence.
Qed.

End ResolverProperties.

Section ResolvedTree.
Import notion stub resolver.
Context {Date : Type} (decodeDate : gmap string value → error + Date).
Variable rich_text_kind : string → bool.
Variable fuel : nat.


End ResolvedTree.

(** ** More on the pagination driver *)

Section PaginationExtras.
Import notion stub.

(** As long as the replies are chunks with a non-empty cursor stack, the
    loop goes on: one request per reply, each with the cursor of the reply
    before it. *)
Lemma GetBlock_loop_prefix (rs : list loadPageChunkResponse)
    (tail : list reply) (fuel : nat) (blockID : string) (limit : Z)
    (columns : bool) (c : Cursor) (results : list RecordMap)
    (log0 : list (payload * string)) :
  Forall (λ r, Stack (r_Cursor r) ≠ []) rs →
  GetBlock_loop (length rs + fuel)
    {| lp_PageID := blockID; lp_Limit := limit; lp_Cursor := c;
       lp_VerticalColumns := columns |} results
    {| script := map Chunk rs ++ tail; log := log0 |}
  = GetBlock_loop fuel
      {| lp_PageID := blockID; lp_Limit := limit;
         lp_Cursor := default c (last (map r_Cursor rs));
         lp_VerticalColumns := columns |}
      (results ++ map r_RecordMap rs)
      {| script := tail;
         log := log0 ++ map (chunk_request blockID limit columns)
                          (take (length rs) (c :: map r_Cursor rs)) |}.
Proof.
  intros Hrs. revert c results log0.
  induction Hrs as [|r rs Hr Hrs IH]; intros c results log0.
  - simpl. by rewrite !app_nil_r.
  - cbn [length Nat.add GetBlock_loop]. unfold bind at 1. cbn.
    rewrite bool_decide_false by (by destruct (Stack (r_Cursor r))).
    rewrite IH. rewrite <- !app_assoc. cbn.
    rewrite last_cons. by destruct (last (map r_Cursor rs)).
Qed.

Lemma take_snoc_last {A} (c : A) (l : list A) :
  take (length l) (c :: l) ++ [default c (last l)] = c :: l.
Proof.
  revert c. induction l as [|x l IH]; intros c; [done|].
  cbn [length take app]. rewrite last_cons. f_equal.
  rewrite <- (IH x) at 2. by destruct (last l).
Qed.

Lemma requests_snoc_last (blockID : string) (limit : Z) (columns : bool)
    (c : Cursor) (cs : list Cursor) :
  map (chunk_request blockID limit columns) (take (length cs) (c :: cs))
  ++ [chunk_request blockID limit columns (default c (last cs))]
  = map (chunk_request blockID limit columns) (c :: cs).
Proof.
  rewrite <- (take_snoc_last c cs) at 2. by rewrite map_app.
Qed.

(** X14: a round trip that fails aborts the fetch.  After [n] chunks with
    non-empty cursors, a reply with a status other than 200 makes
    [GetBlock] return a nil block and the transport error as it is; it has
    sent [n + 1] requests, sends no further one, and hands out none of the
    record maps it had collected. *)
Theorem GetBlock_transport_failure (blockID : string)
    (rs : list loadPageChunkResponse) (code : Z) (extra : list reply)
    (fuel : nat) :
  Forall (λ r, Stack (r_Cursor r) ≠ []) rs →
  code ≠ 200%Z →
  length rs < fuel →
  GetBlock fuel blockID
    {| script := map Chunk rs ++ Status code :: extra; log := [] |}
  = (Done (None, Some (External "unexpected status")),
     {| script := extra;
        log := map (chunk_request blockID 50 false)
                 ({| Stack := [] |} :: map r_Cursor rs) |}).
Proof.
  intros Hrs Hcode Hfuel.
  replace fuel with (length rs + S (fuel - S (length rs))) by lia.
  unfold GetBlock.
  unfold bind at 1. rewrite (GetBlock_loop_prefix rs) by done.
  cbn. rewrite bool_decide_false by done. cbn.
  rewrite <- (length_map r_Cursor rs) at 1.
  by rewrite requests_snoc_last.
Qed.

(** X15: a reply that does not decode aborts the fetch as well: the error
    of [json.Unmarshal] comes back wrapped as
    "unmarshaling loadPageChunkResponse", with a nil block. *)
Theorem GetBlock_decode_failure (blockID : string)
    (rs : list loadPageChunkResponse) (extra : list reply) (fuel : nat) :
  Forall (λ r, Stack (r_Cursor r) ≠ []) rs →
  length rs < fuel →
  GetBlock fuel blockID
    {| script := map Chunk rs ++ NotJSON :: extra; log := [] |}
  = (Done (None, Some (Wrap (External "invalid character")
                         "unmarshaling loadPageChunkResponse")),
     {| script := extra;
        log := map (chunk_request blockID 50 false)
                 ({| Stack := [] |} :: map r_Cursor rs) |}).
Proof.
  intros Hrs Hfuel.
  replace fuel with (length rs + S (fuel - S (length rs))) by lia.
  unfold GetBlock.
  unfold bind at 1. rewrite (GetBlock_loop_prefix rs) by done.
  cbn. rewrite <- (length_map r_Cursor rs) at 1.
  by rewrite requests_snoc_last.
Qed.

(** X16: the loop has no bound of its own on the number of pages: while the
    service answers with non-empty cursors the driver keeps asking, so after
    [n] such replies it has sent [n] requests and has not returned. *)
Theorem GetBlock_keeps_asking (blockID : string)
    (rs : list loadPageChunkResponse) (tail : list reply) :
  Forall (λ r, Stack (r_Cursor r) ≠ []) rs →
  GetBlock (length rs) blockID
    {| script := map Chunk rs ++ tail; log := [] |}
  = (OutOfFuel,
     {| script := tail;
        log := map (chunk_request blockID 50 false)
                 (take (length rs) ({| Stack := [] |} :: map r_Cursor rs)) |}).
Proof.
  intros Hrs. unfold GetBlock. unfold bind at 1.
  rewrite <- (Nat.add_0_r (length rs)) at 1.
  by rewrite (GetBlock_loop_prefix rs) by done.
Qed.

End PaginationExtras.

(** ** Blocks and paths *)

Section BlockProperties.
Import notiontypes.
Variables BlockPage BlockImage BlockCode TableSpace : string.

(** X17: a block is a link to a page exactly when it is a page whose
    parent table is the space table; so every link to a page is a page, and
    a block of another type never is one. *)
Theorem IsLinkToPage_iff (b : Block.t) :
  Block.IsLinkToPage BlockPage TableSpace b = true ↔
  Block.IsPage BlockPage b = true ∧ Block.ParentTable b = TableSpace.
Proof.
  unfold Block.IsLinkToPage, Block.IsPage.
  destruct (String.eqb_spec (Block.Type_ b) BlockPage); simpl.
  - rewrite String.eqb_eq. tauto.
  - split; [done|]. by intros [? _].
Qed.

(** X18: a block has one type: when the type constants differ, at most one
    of [IsPage], [IsImage] and [IsCode] holds. *)
Theorem Block_kinds_exclusive (b : Block.t) :
  BlockPage ≠ BlockImage → BlockPage ≠ BlockCode → BlockImage ≠ BlockCode →
  (Block.IsPage BlockPage b && Block.IsImage BlockImage b = false) ∧
  (Block.IsPage BlockPage b && Block.IsCode BlockCode b = false) ∧
  (Block.IsImage BlockImage b && Block.IsCode BlockCode b = false).
Proof.
  unfold Block.IsPage, Block.IsImage, Block.IsCode. intros Hpi Hpc Hic.
  destruct (String.eqb_spec (Block.Type_ b) BlockPage),
    (String.eqb_spec (Block.Type_ b) BlockImage),
    (String.eqb_spec (Block.Type_ b) BlockCode); simpl; try done; congruence.
Qed.

Lemma quot_1000_bounds (ms : Z) :
  ((0 ≤ ms → 1000 * Z.quot ms 1000 ≤ ms < 1000 * Z.quot ms 1000 + 1000) ∧
   (ms ≤ 0 → 1000 * Z.quot ms 1000 - 1000 < ms ≤ 1000 * Z.quot ms 1000))%Z.
Proof.
  pose proof (Z.quot_rem ms 1000 ltac:(lia)).
  pose proof (Z.rem_bound_pos ms 1000).
  pose proof (Z.rem_bound_pos_neg ms 1000). lia.
Qed.

(** X19: [CreatedOn] and [UpdatedOn] drop the milliseconds by truncating
    toward zero: each returns the second [sec] that is within one second of
    its millisecond stamp, on the side of zero, with no nanoseconds; and a
    block edited no earlier than it was created is updated no earlier than
    created. *)
Theorem CreatedOn_truncates (b : Block.t) :
  let created := unix_sec (Block.CreatedOn b) in
  let updated := unix_sec (Block.UpdatedOn b) in
  unix_nsec (Block.CreatedOn b) = 0%Z ∧
  unix_nsec (Block.UpdatedOn b) = 0%Z ∧
  (0 ≤ Block.CreatedTime b →
   1000 * created ≤ Block.CreatedTime b < 1000 * created + 1000)%Z ∧
  (Block.CreatedTime b ≤ 0 →
   1000 * created - 1000 < Block.CreatedTime b ≤ 1000 * created)%Z ∧
  (0 ≤ Block.LastEditedTime b →
   1000 * updated ≤ Block.LastEditedTime b < 1000 * updated + 1000)%Z ∧
  (Block.LastEditedTime b ≤ 0 →
   1000 * updated - 1000 < Block.LastEditedTime b ≤ 1000 * updated)%Z ∧
  (Block.CreatedTime b ≤ Block.LastEditedTime b → created ≤ updated)%Z.
Proof.
  cbn.
  destruct (quot_1000_bounds (Block.CreatedTime b)) as [Hc_pos Hc_neg].
  destruct (quot_1000_bounds (Block.LastEditedTime b)) as [Hu_pos Hu_neg].
  do 2 (split; [done|]). do 4 (split; [done|]).
  intros Hle. by apply Z.quot_le_mono.
Qed.

End BlockProperties.

Section PathProperties.
Import notion.

Lemma strings_Split_no_sep (s : string) (sep : ascii) :
  contains_byte s sep = false → strings_Split s sep = [s].
Proof.
  induction s as [|c s IH]; [done|]. cbn [strings_Split contains_byte].
  destruct (Ascii.eqb c sep); simpl; [done|].
  intros Hs. by rewrite (IH Hs).
Qed.

(** X20: [strings.Split] returns one piece more than the string has
    separators; a string without separator, the empty one included, comes
    back as its only piece. *)
Theorem strings_Split_length (s : string) (sep : ascii) :
  length (strings_Split s sep) = S (count_byte s sep) ∧
  (contains_byte s sep = false → strings_Split s sep = [s]).
Proof.
  split.
  - induction s as [|c s IH]; [done|]. cbn [strings_Split count_byte].
    destruct (Ascii.eqb c sep); simpl; [by rewrite IH|].
    destruct (strings_Split s sep); simpl in *; lia.
  - apply strings_Split_no_sep.
Qed.

(** X21: splitting undoes joining: for a non-empty list of pieces none of
    which contains the separator, splitting their join gives the pieces
    back. *)
Theorem strings_Split_Join (pieces : list string) (sep : ascii) :
  pieces ≠ [] →
  Forall (λ piece, contains_byte piece sep = false) pieces →
  strings_Split (strings_Join pieces sep) sep = pieces.
Proof.
  intros Hne Hpieces. induction Hpieces as [|p ps Hp Hps IH]; [done|].
  destruct ps as [|q ps].
  - simpl. by apply strings_Split_no_sep.
  - rewrite strings_Join_cons by done.
    specialize (IH ltac:(done)). revert IH.
    generalize (strings_Join (q :: ps) sep). intros rest IH.
    clear Hps Hne. induction p as [|c p IHp]; simpl.
    + by rewrite Ascii.eqb_refl, IH.
    + simpl in Hp. apply orb_false_elim in Hp as [-> Hp].
      by rewrite (IHp Hp).
Qed.

End PathProperties.

(** ** The extras at work on the fixtures *)

Section ExtrasAtWork.
Import notiontypes notion stub.

Lemma parseInlineBlocks_error_no_spans_witness :
  ∃ spans err,
    parseInlineBlocks keepDate
      (VArray [VArray [VString "ok"]; VNumber "5"]) = Done (spans, Some err)
    ∧ spans = [].
Proof.
  do 2 eexists. split; [reflexivity|].
  eapply (parseInlineBlocks_error_no_spans keepDate
            (VArray [VArray [VString "ok"]; VNumber "5"])).
  reflexivity.
Defined.

Lemma parseAttributes_untouched_witness :
  parseAttributes keepDate (newInlineBlock "t") styled_attrs
  = Done (styled, None) ∧
  Text styled = "t".
Proof.
  split; [reflexivity|].
  apply (parseAttributes_untouched keepDate styled_attrs (newInlineBlock "t")
           styled eq_refl).
Defined.

Lemma parseAttributes_last_wins_witness :
  parseAttributes keepDate (newInlineBlock "t") styled_attrs
  = Done (styled, None) ∧
  UserID styled = "u-1".
Proof.
  split; [reflexivity|].
  apply (proj2 (parseAttributes_last_wins keepDate
                  [VArray [VString "i"]; VArray [VString "b"];
                   VArray [VString "u"; VString "u-0"]; VArray [VString "i"]]
                  [] "u-1" (newInlineBlock "t") styled) eq_refl).
  intros v' Hin. by apply elem_of_nil in Hin.
Defined.

Lemma parseAttributes_flag_bits_witness :
  parseAttributes keepDate (newInlineBlock "t") styled_attrs
  = Done (styled, None) ∧
  (Z.testbit (AttrFlags styled) 0 = true ↔
   Z.testbit (AttrFlags (newInlineBlock (Date:=gmap string value) "t")) 0
   = true ∨ VArray [VString "b"] ∈ styled_attrs).
Proof.
  split; [reflexivity|].
  apply (parseAttributes_flag_bits keepDate styled_attrs (newInlineBlock "t")
           styled eq_refl).
Defined.

Lemma parseAttributes_flag_not_plain_witness :
  parseAttributes keepDate (newInlineBlock "t") styled_attrs
  = Done (styled, None) ∧
  VArray [VString "i"] ∈ styled_attrs ∧
  IsPlain styled = false.
Proof.
  assert (VArray [VString "i"] ∈ styled_attrs) as Hin by left.
  split; [reflexivity|]. split; [exact Hin|].
  exact (parseAttributes_flag_not_plain keepDate styled_attrs
           (newInlineBlock "t") styled "i" eq_refl Hin).
Defined.

Lemma parseInlineBlocks_texts_witness :
  let a := [VArray [VString "hello"];
            VArray [VString "world"; VArray [VArray [VString "b"]]]] in
  let spans := [Some (newInlineBlock "hello");
                Some {| Text := "world"; AttrFlags := AttrBold;
                        Link := EmptyString; UserID := EmptyString;
                        Date_ := None |}] in
  parseInlineBlocks keepDate (VArray a) = Done (spans, None) ∧
  length spans = length a ∧
  Forall is_Some spans ∧
  fmap Text <$> spans = entry_text <$> a.
Proof.
  intros a spans. split; [reflexivity|].
  exact (parseInlineBlocks_texts keepDate a spans eq_refl).
Defined.

Lemma mergeRecordMaps_skip_empty_witness :
  no_entries emptyRecordMap ∧
  mergeRecordMaps ([r_RecordMap page1] ++ emptyRecordMap :: [r_RecordMap page2])
  = mergeRecordMaps ([r_RecordMap page1] ++ [r_RecordMap page2]).
Proof.
  assert (no_entries emptyRecordMap) as Hempty by (by repeat split).
  split; [exact Hempty|].
  exact (mergeRecordMaps_skip_empty [r_RecordMap page1] [r_RecordMap page2]
           emptyRecordMap Hempty).
Defined.

Lemma parseBlockFromRecordMaps_nil_record_witness :
  let w := {| script := []; log := [] |} in
  mergeRecordMaps [ghost_page] = Done (merged_ghost, None) ∧
  is_Some (index (Blocks merged_ghost) "root") ∧
  index (Blocks merged_ghost) "ghost" = Some None ∧
  parseBlockFromRecordMaps "root" [ghost_page] w = (Panic NilDereference, w).
Proof.
  intros w.
  assert (Hrm : mergeRecordMaps [ghost_page] = Done (merged_ghost, None))
    by (vm_compute; reflexivity).
  assert (Hroot : is_Some (index (Blocks merged_ghost) "root"))
    by (exists (Some (editor 1)); vm_compute; reflexivity).
  assert (Hghost : index (Blocks merged_ghost) "ghost" = Some None)
    by (vm_compute; reflexivity).
  split; [exact Hrm|]. split; [exact Hroot|]. split; [exact Hghost|].
  exact (parseBlockFromRecordMaps_nil_record "root" "ghost" [ghost_page]
           merged_ghost w Hrm Hroot Hghost).
Defined.

Lemma merged_pages_no_nil (k : string) :
  index (Blocks merged_pages) k ≠ Some None.
Proof.
  destruct (block_values_cases (Blocks merged_pages))
    as [[_ Hall]|[Hpanic _]]; [apply Hall|].
  vm_compute in Hpanic. discriminate Hpanic.
Qed.

Lemma parseBlockFromRecordMaps_resolves_witness :
  let responses :=
    [r_RecordMap page1; r_RecordMap page2; r_RecordMap page3] in
  let w := {| script := []; log := [] |} in
  mergeRecordMaps responses = Done (merged_pages, None) ∧
  index (Blocks merged_pages) "root" = Some (Some (editor 1)) ∧
  ∃ blocks,
    (∀ k, blocks !! k
          = (λ v, v ≫= Value) <$> index (Blocks merged_pages) k) ∧
    parseBlockFromRecordMaps "root" responses w
    = match ResolveBlock (Value (editor 1)) blocks w with
      | (Done (Some err), w') =>
        (Done (None, Some (Wrap err "resolveBlock failed")), w')
      | (Done None, w') => (Done (Value (editor 1), None), w')
      | (Panic p, w') => (Panic p, w')
      | (OutOfFuel, w') => (OutOfFuel, w')
      end.
Proof.
  intros responses w.
  assert (Hrm : mergeRecordMaps responses = Done (merged_pages, None))
    by (vm_compute; reflexivity).
  assert (Hroot : index (Blocks merged_pages) "root" = Some (Some (editor 1)))
    by (vm_compute; reflexivity).
  split; [exact Hrm|]. split; [exact Hroot|].
  exact (parseBlockFromRecordMaps_resolves "root" responses merged_pages
           (editor 1) w Hrm Hroot merged_pages_no_nil).
Defined.

Lemma parseBlockFromRecordMaps_last_page_witness :
  let responses := [r_RecordMap page1; r_RecordMap root_again] in
  let w := {| script := []; log := [] |} in
  mergeRecordMaps responses = Done (merged_again, None) ∧
  index (Blocks (r_RecordMap root_again)) "root" = Some (Some (editor 7)) ∧
  block_values (Blocks merged_again) = Done {[ "root" := Some 7%positive ]} ∧
  parseBlockFromRecordMaps "root" responses w
  = (Done (Some 7%positive, None), w).
Proof.
  intros responses w.
  assert (Hrm : mergeRecordMaps responses = Done (merged_again, None))
    by (vm_compute; reflexivity).
  assert (Hroot : index (Blocks (r_RecordMap root_again)) "root"
                  = Some (Some (editor 7))) by (vm_compute; reflexivity).
  assert (Hblocks : block_values (Blocks merged_again)
                    = Done {[ "root" := Some 7%positive ]})
    by (vm_compute; reflexivity).
  split; [exact Hrm|]. split; [exact Hroot|]. split; [exact Hblocks|].
  refine (parseBlockFromRecordMaps_last_page "root" responses merged_again
            (r_RecordMap root_again) 1 (editor 7) _ w w Hrm eq_refl Hroot _
            Hblocks _).
  - intros [|[|j]] page' Hj Hlook; [lia|lia|discriminate].
  - vm_compute. reflexivity.
Defined.

Lemma GetBlock_transport_failure_witness :
  Forall (λ r, Stack (r_Cursor r) ≠ []) [page1; page2] ∧
  500%Z ≠ 200%Z ∧
  length [page1; page2] < 5 ∧
  GetBlock 5 "root"
    {| script := [Chunk page1; Chunk page2; Status 500; Chunk page3];
       log := [] |}
  = (Done (None, Some (External "unexpected status")),
     {| script := [Chunk page3];
        log := [chunk_request "root" 50 false {| Stack := [] |};
                chunk_request "root" 50 false {| Stack := [["root-1"]] |};
                chunk_request "root" 50 false {| Stack := [["root-2"]] |}] |}).
Proof.
  assert (Hrs : Forall (λ r, Stack (r_Cursor r) ≠ []) [page1; page2])
    by (repeat constructor; discriminate).
  assert (Hcode : 500%Z ≠ 200%Z) by discriminate.
  assert (Hfuel : length [page1; page2] < 5) by (simpl; lia).
  split; [exact Hrs|]. split; [exact Hcode|]. split; [exact Hfuel|].
  exact (GetBlock_transport_failure "root" [page1; page2] 500 [Chunk page3] 5
           Hrs Hcode Hfuel).
Defined.

Lemma GetBlock_decode_failure_witness :
  Forall (λ r, Stack (r_Cursor r) ≠ []) [page1] ∧
  length [page1] < 2 ∧
  GetBlock 2 "root" {| script := [Chunk page1; NotJSON]; log := [] |}
  = (Done (None, Some (Wrap (External "invalid character")
                         "unmarshaling loadPageChunkResponse")),
     {| script := [];
        log := [chunk_request "root" 50 false {| Stack := [] |};
                chunk_request "root" 50 false {| Stack := [["root-1"]] |}] |}).
Proof.
  assert (Hrs : Forall (λ r, Stack (r_Cursor r) ≠ []) [page1])
    by (repeat constructor; discriminate).
  assert (Hfuel : length [page1] < 2) by (simpl; lia).
  split; [exact Hrs|]. split; [exact Hfuel|].
  exact (GetBlock_decode_failure "root" [page1] [] 2 Hrs Hfuel).
Defined.

Lemma GetBlock_keeps_asking_witness :
  Forall (λ r, Stack (r_Cursor r) ≠ []) [page1; page2] ∧
  GetBlock 2 "root" {| script := [Chunk page1; Chunk page2]; log := [] |}
  = (OutOfFuel,
     {| script := [];
        log := [chunk_request "root" 50 false {| Stack := [] |};
                chunk_request "root" 50 false {| Stack := [["root-1"]] |}] |}).
Proof.
  assert (Hrs : Forall (λ r, Stack (r_Cursor r) ≠ []) [page1; page2])
    by (repeat constructor; discriminate).
  split; [exact Hrs|].
  exact (GetBlock_keeps_asking "root" [page1; page2] [] Hrs).
Defined.

Lemma Block_kinds_exclusive_witness :
  "page" ≠ "image" ∧ "page" ≠ "code" ∧ "image" ≠ "code" ∧
  Block.IsPage "page" sample_block = true ∧
  Block.IsPage "page" sample_block && Block.IsImage "image" sample_block
  = false.
Proof.
  assert (Hpi : "page" ≠ "image") by discriminate.
  assert (Hpc : "page" ≠ "code") by discriminate.
  assert (Hic : "image" ≠ "code") by discriminate.
  split; [exact Hpi|]. split; [exact Hpc|]. split; [exact Hic|].
  split; [reflexivity|].
  exact (proj1 (Block_kinds_exclusive "page" "image" "code" sample_block
                  Hpi Hpc Hic)).
Defined.

Lemma strings_Split_Join_witness :
  ["properties"; "title"] ≠ [] ∧
  Forall (λ piece, contains_byte piece "." = false) ["properties"; "title"] ∧
  strings_Split (strings_Join ["properties"; "title"] ".") "."
  = ["properties"; "title"].
Proof.
  assert (Hne : ["properties"; "title"] ≠ []) by discriminate.
  assert (Hpieces : Forall (λ piece, contains_byte piece "." = false)
                      ["properties"; "title"])
    by (repeat constructor).
  split; [exact Hne|]. split; [exact Hpieces|].
  exact (strings_Split_Join ["properties"; "title"] "." Hne Hpieces).
Defined.

End ExtrasAtWork.

(** ** The resolved tree of the three-page fixture *)

Section ResolvedTreeAtWork.
Import notion stub resolver.



(** The scenarios of the specification: the content of a resolved root is
    its children in the order of its content ids, and a child id that is
    missing from the map fails the resolution with an error naming it. *)
Example resolve_content_in_order :
  Content <$> heap linked_world !! 1%positive = Some [2%positive; 3%positive].
Proof. vm_compute; reflexivity. Qed.

Example resolve_missing_child :
  ResolveBlock_spec keepDate text_kind 2 (Some 1%positive)
    (delete "child-b" (blocks_of merged_pages)) tree_world
  = (Done (Some (Errorf "missing block id %s" [ArgString "child-b"])),
     {| service := idle;
        heap := <[2%positive :=
                    set_InlineContent (decoded "child-a" "text" [] "first")
                      [plain "first"]]> (heap tree_world) |}).
Proof. vm_compute; reflexivity. Qed.

End ResolvedTreeAtWork.
